(** * MeditationPlayer: the playback controller of ZenGen

    A shallow embedding of [src/components/MeditationPlayer.tsx].

    The component keeps three React state variables ([isPlaying],
    [progress], [volume]) and five refs, and drives two platform
    services: the Web Audio context (buffer source nodes, gain nodes, the
    context clock [ctx.currentTime]) and the animation-frame queue.  The
    embedding puts all of them in one record, [Player], and writes the
    handlers of the component in a state-and-exception monad over it.

    JavaScript numbers are idealised as exact rationals ([Q]): the
    arithmetic of the component (a subtraction, a division, a product and a
    [Math.min]) is carried out without rounding, and NaN and the infinities
    are not represented.  [progress] is a percentage, as in the source; the
    progress fraction of the specification is [progress / 100].

    Two things the platform rounds are kept apart from this idealisation.
    The gain of a gain node is a single-precision number: a gain node
    holds [fround] of what is assigned to it.  And the numbers of the
    component are binary64: [Module Double] repeats the arithmetic of
    [playAudio] and [updateProgress] on binary64 numbers, operation by
    operation, and is where a property that needs exact arithmetic is
    shown to fail.  A property of the rational model is stated with the
    expressions of the source, so that it reads the same with every
    operation rounded.

    The first part is the embedding: the platform, the handlers, React's
    rendering, and the vocabulary of the properties.  The second part
    holds the proofs. *)

From Stdlib Require Import QArith Qminmax Qround Qabs Lqa Lia.
From Stdlib Require Floats.
From stdpp Require Import base option list.
From stdpp Require Import strings.

Local Open Scope Q_scope.

(** ** Numbers *)

Definition Qlt_bool (x y : Q) : bool := negb (Qle_bool y x).

(** [Math.fround]: the binary32 number nearest to [x], the even one in a
    tie.  [ilog2 x] is the exponent of the binade of a positive [x]; below
    2^-126 the numbers are subnormal and 2^-149 apart.  Magnitudes from
    2^128 on, which become infinite, are not represented. *)
Definition ilog2 (x : Q) : Z :=
  let e := (Z.log2 (Qnum x) - Z.log2 (Zpos (Qden x)))%Z in
  if Qle_bool (Qpower 2 e) x then e else (e - 1)%Z.

Definition round_half_even (x : Q) : Z :=
  let f := Qfloor x in
  match Qcompare (x - inject_Z f) (1 # 2) with
  | Lt => f
  | Gt => (f + 1)%Z
  | Eq => if Z.even f then f else (f + 1)%Z
  end.

Definition fround (x : Q) : Q :=
  if Qeq_bool x 0 then 0
  else
    let e := Z.max (ilog2 (Qabs x)) (-126) in
    let ulp := Qpower 2 (e - 23) in
    Qred (inject_Z (round_half_even (x / ulp)) * ulp).
Arguments fround : simpl never.

(** ** The platform: audio graph and animation frames *)

(** Exceptions the Web Audio calls of the component can raise. *)
Inductive Fault : Type :=
| InvalidStateError
| RangeError.

Inductive ContextState : Type :=
| suspended
| running.

(** An [AudioBufferSourceNode].  [n_buffer] is the duration of the buffer
    assigned to it, [n_output] the gain node it is connected to,
    [n_started] the context time at which [start] took effect together with
    the offset into the buffer, [n_stopped] whether [stop] was called. *)
Record SourceNode : Type := {
  n_buffer : option Q;
  n_output : option nat;
  n_started : option (Q * Q);
  n_stopped : bool;
}.

(** A [GainNode]: its gain, [gain.value], a single-precision number, and
    whether it feeds [ctx.destination]. *)
Record GainNode : Type := {
  g_value : Q;
  g_toDestination : bool;
}.

(** The values of the state variables one render closes over.  Every
    function declared in the component body ([playAudio], [updateProgress],
    ...) reads the state through the closure of the render that created
    it, not through the latest state. *)
Record Closure : Type := {
  c_isPlaying : bool;
  c_progress : Q;
  c_volume : Q;
}.

(** ** The component instance and its environment *)

Record Player : Type := {
  (* props *)
  session_audioBuffer : option Q;   (* duration of session.audioBuffer *)
  (* useState *)
  isPlaying : bool;
  progress : Q;
  volume : Q;
  (* useRef *)
  audioSourceRef : option nat;
  startTimeRef : Q;
  pauseTimeRef : Q;
  animationFrameRef : nat;
  gainNodeRef : option nat;
  (* the audio context *)
  ctx_currentTime : Q;
  ctx_state : ContextState;
  ctx_sources : list SourceNode;
  ctx_gains : list GainNode;
  (* the animation-frame queue: callbacks [updateProgress], each with the
     closure it belongs to *)
  raf_next : nat;
  raf_pending : list (nat * Closure);
}.

Definition set_isPlaying (v : bool) (s : Player) : Player :=
  {| session_audioBuffer := session_audioBuffer s; isPlaying := v;
     progress := progress s; volume := volume s;
     audioSourceRef := audioSourceRef s; startTimeRef := startTimeRef s;
     pauseTimeRef := pauseTimeRef s; animationFrameRef := animationFrameRef s;
     gainNodeRef := gainNodeRef s; ctx_currentTime := ctx_currentTime s;
     ctx_state := ctx_state s; ctx_sources := ctx_sources s;
     ctx_gains := ctx_gains s; raf_next := raf_next s;
     raf_pending := raf_pending s |}.

Definition set_progress (v : Q) (s : Player) : Player :=
  {| session_audioBuffer := session_audioBuffer s; isPlaying := isPlaying s;
     progress := v; volume := volume s;
     audioSourceRef := audioSourceRef s; startTimeRef := startTimeRef s;
     pauseTimeRef := pauseTimeRef s; animationFrameRef := animationFrameRef s;
     gainNodeRef := gainNodeRef s; ctx_currentTime := ctx_currentTime s;
     ctx_state := ctx_state s; ctx_sources := ctx_sources s;
     ctx_gains := ctx_gains s; raf_next := raf_next s;
     raf_pending := raf_pending s |}.

Definition set_volume (v : Q) (s : Player) : Player :=
  {| session_audioBuffer := session_audioBuffer s; isPlaying := isPlaying s;
     progress := progress s; volume := v;
     audioSourceRef := audioSourceRef s; startTimeRef := startTimeRef s;
     pauseTimeRef := pauseTimeRef s; animationFrameRef := animationFrameRef s;
     gainNodeRef := gainNodeRef s; ctx_currentTime := ctx_currentTime s;
     ctx_state := ctx_state s; ctx_sources := ctx_sources s;
     ctx_gains := ctx_gains s; raf_next := raf_next s;
     raf_pending := raf_pending s |}.

Definition set_audioSourceRef (v : option nat) (s : Player) : Player :=
  {| session_audioBuffer := session_audioBuffer s; isPlaying := isPlaying s;
     progress := progress s; volume := volume s;
     audioSourceRef := v; startTimeRef := startTimeRef s;
     pauseTimeRef := pauseTimeRef s; animationFrameRef := animationFrameRef s;
     gainNodeRef := gainNodeRef s; ctx_currentTime := ctx_currentTime s;
     ctx_state := ctx_state s; ctx_sources := ctx_sources s;
     ctx_gains := ctx_gains s; raf_next := raf_next s;
     raf_pending := raf_pending s |}.

Definition set_startTimeRef (v : Q) (s : Player) : Player :=
  {| session_audioBuffer := session_audioBuffer s; isPlaying := isPlaying s;
     progress := progress s; volume := volume s;
     audioSourceRef := audioSourceRef s; startTimeRef := v;
     pauseTimeRef := pauseTimeRef s; animationFrameRef := animationFrameRef s;
     gainNodeRef := gainNodeRef s; ctx_currentTime := ctx_currentTime s;
     ctx_state := ctx_state s; ctx_sources := ctx_sources s;
     ctx_gains := ctx_gains s; raf_next := raf_next s;
     raf_pending := raf_pending s |}.

Definition set_animationFrameRef (v : nat) (s : Player) : Player :=
  {| session_audioBuffer := session_audioBuffer s; isPlaying := isPlaying s;
     progress := progress s; volume := volume s;
     audioSourceRef := audioSourceRef s; startTimeRef := startTimeRef s;
     pauseTimeRef := pauseTimeRef s; animationFrameRef := v;
     gainNodeRef := gainNodeRef s; ctx_currentTime := ctx_currentTime s;
     ctx_state := ctx_state s; ctx_sources := ctx_sources s;
     ctx_gains := ctx_gains s; raf_next := raf_next s;
     raf_pending := raf_pending s |}.

Definition set_gainNodeRef (v : option nat) (s : Player) : Player :=
  {| session_audioBuffer := session_audioBuffer s; isPlaying := isPlaying s;
     progress := progress s; volume := volume s;
     audioSourceRef := audioSourceRef s; startTimeRef := startTimeRef s;
     pauseTimeRef := pauseTimeRef s; animationFrameRef := animationFrameRef s;
     gainNodeRef := v; ctx_currentTime := ctx_currentTime s;
     ctx_state := ctx_state s; ctx_sources := ctx_sources s;
     ctx_gains := ctx_gains s; raf_next := raf_next s;
     raf_pending := raf_pending s |}.

Definition set_ctx_currentTime (v : Q) (s : Player) : Player :=
  {| session_audioBuffer := session_audioBuffer s; isPlaying := isPlaying s;
     progress := progress s; volume := volume s;
     audioSourceRef := audioSourceRef s; startTimeRef := startTimeRef s;
     pauseTimeRef := pauseTimeRef s; animationFrameRef := animationFrameRef s;
     gainNodeRef := gainNodeRef s; ctx_currentTime := v;
     ctx_state := ctx_state s; ctx_sources := ctx_sources s;
     ctx_gains := ctx_gains s; raf_next := raf_next s;
     raf_pending := raf_pending s |}.

Definition set_ctx_state (v : ContextState) (s : Player) : Player :=
  {| session_audioBuffer := session_audioBuffer s; isPlaying := isPlaying s;
     progress := progress s; volume := volume s;
     audioSourceRef := audioSourceRef s; startTimeRef := startTimeRef s;
     pauseTimeRef := pauseTimeRef s; animationFrameRef := animationFrameRef s;
     gainNodeRef := gainNodeRef s; ctx_currentTime := ctx_currentTime s;
     ctx_state := v; ctx_sources := ctx_sources s;
     ctx_gains := ctx_gains s; raf_next := raf_next s;
     raf_pending := raf_pending s |}.

Definition set_ctx_sources (v : list SourceNode) (s : Player) : Player :=
  {| session_audioBuffer := session_audioBuffer s; isPlaying := isPlaying s;
     progress := progress s; volume := volume s;
     audioSourceRef := audioSourceRef s; startTimeRef := startTimeRef s;
     pauseTimeRef := pauseTimeRef s; animationFrameRef := animationFrameRef s;
     gainNodeRef := gainNodeRef s; ctx_currentTime := ctx_currentTime s;
     ctx_state := ctx_state s; ctx_sources := v;
     ctx_gains := ctx_gains s; raf_next := raf_next s;
     raf_pending := raf_pending s |}.

Definition set_ctx_gains (v : list GainNode) (s : Player) : Player :=
  {| session_audioBuffer := session_audioBuffer s; isPlaying := isPlaying s;
     progress := progress s; volume := volume s;
     audioSourceRef := audioSourceRef s; startTimeRef := startTimeRef s;
     pauseTimeRef := pauseTimeRef s; animationFrameRef := animationFrameRef s;
     gainNodeRef := gainNodeRef s; ctx_currentTime := ctx_currentTime s;
     ctx_state := ctx_state s; ctx_sources := ctx_sources s;
     ctx_gains := v; raf_next := raf_next s;
     raf_pending := raf_pending s |}.

Definition set_raf (next : nat) (pending : list (nat * Closure)) (s : Player)
  : Player :=
  {| session_audioBuffer := session_audioBuffer s; isPlaying := isPlaying s;
     progress := progress s; volume := volume s;
     audioSourceRef := audioSourceRef s; startTimeRef := startTimeRef s;
     pauseTimeRef := pauseTimeRef s; animationFrameRef := animationFrameRef s;
     gainNodeRef := gainNodeRef s; ctx_currentTime := ctx_currentTime s;
     ctx_state := ctx_state s; ctx_sources := ctx_sources s;
     ctx_gains := ctx_gains s; raf_next := next;
     raf_pending := pending |}.

(** ** The monad of handlers: state plus exceptions

    A handler either finishes with a value or throws; in both cases the
    mutations made so far stay, as in JavaScript. *)

Inductive Outcome (A : Type) : Type :=
| Done (a : A) (s : Player)
| Thrown (f : Fault) (s : Player).
Arguments Done {A} a s.
Arguments Thrown {A} f s.

Definition M (A : Type) : Type := Player → Outcome A.

#[global] Instance M_ret : MRet M := λ A a s, Done a s.
#[global] Instance M_bind : MBind M := λ A B k m s,
  match m s with
  | Done a s' => k a s'
  | Thrown f s' => Thrown f s'
  end.

Definition throw {A} (f : Fault) : M A := λ s, Thrown f s.
Definition try_catch {A} (m : M A) (h : Fault → M A) : M A := λ s,
  match m s with
  | Done a s' => Done a s'
  | Thrown f s' => h f s'
  end.
Definition gets {A} (f : Player → A) : M A := λ s, Done (f s) s.
Definition modify (f : Player → Player) : M unit := λ s, Done () (f s).
Definition skip : M unit := mret ().

(** ** Platform operations *)

Definition new_source : SourceNode :=
  {| n_buffer := None; n_output := None; n_started := None;
     n_stopped := false |}.

Definition with_buffer (d : Q) (n : SourceNode) : SourceNode :=
  {| n_buffer := Some d; n_output := n_output n; n_started := n_started n;
     n_stopped := n_stopped n |}.

Definition with_output (g : nat) (n : SourceNode) : SourceNode :=
  {| n_buffer := n_buffer n; n_output := Some g; n_started := n_started n;
     n_stopped := n_stopped n |}.

Definition with_started (t offset : Q) (n : SourceNode) : SourceNode :=
  {| n_buffer := n_buffer n; n_output := n_output n;
     n_started := Some (t, offset); n_stopped := n_stopped n |}.

Definition with_stopped (n : SourceNode) : SourceNode :=
  {| n_buffer := n_buffer n; n_output := n_output n;
     n_started := n_started n; n_stopped := true |}.

(** [gain.value = v]: the parameter takes the single-precision number
    nearest to [v]. *)
Definition with_value (v : Q) (g : GainNode) : GainNode :=
  {| g_value := fround v; g_toDestination := g_toDestination g |}.

Definition with_destination (g : GainNode) : GainNode :=
  {| g_value := g_value g; g_toDestination := true |}.

(** [ctx.createBufferSource()]: a fresh node, named by its index. *)
Definition createBufferSource : M nat := λ s,
  Done (length (ctx_sources s))
       (set_ctx_sources (ctx_sources s ++ [new_source]) s).

(** [ctx.createGain()]: a fresh gain node with the default gain 1. *)
Definition createGain : M nat := λ s,
  Done (length (ctx_gains s))
       (set_ctx_gains
          (ctx_gains s ++ [{| g_value := 1; g_toDestination := false |}]) s).

Definition update_source (h : nat) (f : SourceNode → SourceNode) : M unit :=
  modify (λ s, set_ctx_sources (alter f h (ctx_sources s)) s).

Definition update_gain (h : nat) (f : GainNode → GainNode) : M unit :=
  modify (λ s, set_ctx_gains (alter f h (ctx_gains s)) s).

(** [ctx.resume()].  The promise it returns is not awaited by the
    component; the change of state is taken to be immediate. *)
Definition ctx_resume : M unit := modify (set_ctx_state running).

(** [source.start(when, offset)]: a negative argument is a [RangeError], a
    second [start] an [InvalidStateError]; otherwise the node starts at
    [max(when, currentTime)]. *)
Definition source_start (h : nat) (when offset : Q) : M unit :=
  if Qlt_bool when 0 || Qlt_bool offset 0 then throw RangeError
  else
    nodes ← gets ctx_sources;
    match nodes !! h with
    | None => throw InvalidStateError
    | Some n =>
        match n_started n with
        | Some _ => throw InvalidStateError
        | None =>
            now ← gets ctx_currentTime;
            update_source h (with_started (Qmax when now) offset)
        end
    end.

(** [source.stop()].  It is an [InvalidStateError] to stop a node that was
    never started; stopping a node that was stopped before is taken to
    throw as well, which is the case the [catch] clause of [stopAudio] is
    written for. *)
Definition source_stop (h : nat) : M unit :=
  nodes ← gets ctx_sources;
  match nodes !! h with
  | None => throw InvalidStateError
  | Some n =>
      match n_started n with
      | None => throw InvalidStateError
      | Some _ =>
          if n_stopped n then throw InvalidStateError
          else update_source h with_stopped
      end
  end.

(** [requestAnimationFrame(updateProgress)], for the [updateProgress] of
    the render with closure [c]; the result is the (non-zero) request id. *)
Definition requestAnimationFrame (c : Closure) : M nat := λ s,
  Done (raf_next s)
       (set_raf (S (raf_next s)) (raf_pending s ++ [(raf_next s, c)]) s).

Definition cancelAnimationFrame (id : nat) : M unit :=
  modify (λ s, set_raf (raf_next s)
                 (filter (λ f : nat * Closure, f.1 ≠ id) (raf_pending s)) s).

(** ** The handlers of the component *)

Definition setIsPlaying (v : bool) : M unit := modify (set_isPlaying v).
Definition setProgress (v : Q) : M unit := modify (set_progress v).
Definition setVolume (v : Q) : M unit := modify (set_volume v).

Definition stopAudio : M unit :=
  src ← gets audioSourceRef;
  match src with
  | Some h =>
      try_catch (source_stop h) (λ _, skip (* ignore already stopped errors *));;
      modify (set_audioSourceRef None)
  | None => skip
  end;;
  fr ← gets animationFrameRef;
  if decide (fr ≠ 0%nat) then cancelAnimationFrame fr else skip.

Definition updateProgress (c : Closure) : M unit :=
  buf ← gets session_audioBuffer;
  match buf with
  | None => skip
  | Some duration =>
      now ← gets ctx_currentTime;
      start ← gets startTimeRef;
      let elapsedTime := now - start in
      let currentProgress := Qmin ((elapsedTime / duration) * 100) 100 in
      setProgress currentProgress;;
      if Qlt_bool currentProgress 100 && c_isPlaying c then
        id ← requestAnimationFrame c;
        modify (set_animationFrameRef id)
      else if Qle_bool 100 currentProgress then
        setIsPlaying false;;
        setProgress 100
      else skip
  end.

Definition playAudio (c : Closure) : M unit :=
  buf ← gets session_audioBuffer;
  match buf with
  | None => skip
  | Some duration =>
      (* Resume context if suspended (browser policy) *)
      st ← gets ctx_state;
      match st with suspended => ctx_resume | running => skip end;;
      (* Create source *)
      source ← createBufferSource;
      update_source source (with_buffer duration);;
      (* Create gain node for volume *)
      gainNode ← createGain;
      update_gain gainNode (with_value (c_volume c));;
      modify (set_gainNodeRef (Some gainNode));;
      update_source source (with_output gainNode);;
      update_gain gainNode with_destination;;
      (* Calculate offset if resuming *)
      let offset := (c_progress c / 100) * duration in
      now ← gets ctx_currentTime;
      modify (set_startTimeRef (now - offset));;
      source_start source 0 offset;;
      modify (set_audioSourceRef (Some source));;
      setIsPlaying true;;
      (* source.onended is given a handler with an empty body *)
      id ← requestAnimationFrame c;
      modify (set_animationFrameRef id)
  end.

Definition pauseAudio : M unit :=
  stopAudio;;
  setIsPlaying false.

Definition togglePlay (c : Closure) : M unit :=
  if c_isPlaying c then pauseAudio else playAudio c.

(** [newVol] is the number [parseFloat(e.target.value)]. *)
Definition handleVolumeChange (newVol : Q) : M unit :=
  setVolume newVol;;
  g ← gets gainNodeRef;
  match g with
  | Some h => update_gain h (with_value newVol)
  | None => skip
  end.

(** The [onClick] of the restart button. *)
Definition restartClick : M unit :=
  pauseAudio;;
  setProgress 0;;
  now ← gets ctx_currentTime;
  modify (set_startTimeRef now).

(** ** React: renders, effects, events

    A handler runs to its end, then React renders the component again and
    runs the effects of that render; all of this happens before the next
    event is handled (clicks are discrete events, whose renders and
    effects React flushes synchronously).  The functions of the component
    body are created anew by every render and see the state of that
    render. *)

(** The closure of the render of the current state. *)
Definition render (s : Player) : Closure :=
  {| c_isPlaying := isPlaying s; c_progress := progress s;
     c_volume := volume s |}.

(** The effect with dependency list [[isPlaying]] and its cleanup. *)
Definition playingEffect (c : Closure) : M unit :=
  if c_isPlaying c then
    id ← requestAnimationFrame c;
    modify (set_animationFrameRef id)
  else skip.

Definition playingEffectCleanup : M unit :=
  fr ← gets animationFrameRef;
  if decide (fr ≠ 0%nat) then cancelAnimationFrame fr else skip.

(** After a handler has run, React renders again and, when [isPlaying]
    differs from its value in the previous render [prev], runs the cleanup
    of the old effect and then the effect of the new render. *)
Definition commit (prev : Closure) : M unit :=
  c ← gets render;
  if bool_decide (c_isPlaying prev = c_isPlaying c) then skip
  else playingEffectCleanup;; playingEffect c.

(** An event handler is the one of the latest render. *)
Definition dispatch (handler : Closure → M unit) : M unit :=
  c ← gets render;
  handler c;;
  commit c.

(** What can happen to a mounted player: the three controls, an animation
    frame firing, and the unmount (the cleanups of both effects, in the
    order of their declaration). *)
Inductive Event : Type :=
| Toggle
| Restart
| VolumeChange (newVol : Q)
| Frame
| Unmount.

Definition fireFrame : M unit :=
  pending ← gets raf_pending;
  match pending with
  | [] => skip
  | (_, c) :: rest =>
      next ← gets raf_next;
      modify (set_raf next rest);;
      prev ← gets render;
      updateProgress c;;
      commit prev
  end.

Definition handle (e : Event) : M unit :=
  match e with
  | Toggle => dispatch togglePlay
  | Restart => dispatch (λ _, restartClick)
  | VolumeChange newVol => dispatch (λ _, handleVolumeChange newVol)
  | Frame => fireFrame
  | Unmount => stopAudio;; playingEffectCleanup
  end.

(** The state right after the first render of a player mounted at context
    time [t0] over a session whose audio buffer has duration [buf] (or has
    none): [useState(false)], [useState(0)], [useState(0.8)], refs at their
    initial values, no effect has scheduled anything. *)
Definition mount (buf : option Q) (st : ContextState) (t0 : Q) : Player :=
  {| session_audioBuffer := buf; isPlaying := false; progress := 0;
     volume := 8 # 10;
     audioSourceRef := None; startTimeRef := 0; pauseTimeRef := 0;
     animationFrameRef := 0; gainNodeRef := None;
     ctx_currentTime := t0; ctx_state := st; ctx_sources := [];
     ctx_gains := []; raf_next := 1; raf_pending := [] |}.

(** The context clock moves on between events. *)
Definition step (t : Q) (e : Event) (s : Player) : Outcome unit :=
  handle e (set_ctx_currentTime t s).

Fixpoint run (tr : list (Q * Event)) (s : Player) : Outcome unit :=
  match tr with
  | [] => Done () s
  | (t, e) :: tr' =>
      match step t e s with
      | Done _ s' => run tr' s'
      | Thrown f s' => Thrown f s'
      end
  end.

Definition final {A} (o : Outcome A) : Player :=
  match o with Done _ s => s | Thrown _ s => s end.

(** ** The volume slider

    [handleVolumeChange] has one caller, the change event of the control
    [<input type="range" min="0" max="1" step="0.01">].  Whatever value
    the control is asked to take, the browser sanitises it before the
    event is dispatched: a value that is no number becomes the default,
    the middle of the range; a value below [min] becomes [min], one above
    [max] becomes [max]; and a value between the steps is rounded to the
    nearest step, upwards in a tie.  [e.target.value] is the outcome, and
    [parseFloat] reads it back.  The value asked for is [None] when it
    is no number. *)
Definition range_min : Q := 0.
Definition range_max : Q := 1.
Definition range_step : Q := 1 # 100.

Definition sanitize (value : option Q) : Q :=
  match value with
  | None => range_min + (range_max - range_min) / 2
  | Some x =>
      if Qlt_bool x range_min then range_min
      else if Qlt_bool range_max x then range_max
      else
        range_min
        + inject_Z (Qfloor ((x - range_min) / range_step + (1 # 2)))
          * range_step
  end.

(** The slider is asked for [value]: the change event reaches the
    handler with the sanitised value. *)
Definition slide (value : option Q) : M unit :=
  handle (VolumeChange (sanitize value)).

(** ** Observations *)

(** The progress fraction of the specification. *)
Definition progressFraction (s : Player) : Q := progress s / 100.

(** A source node sounds at context time [t] when it was started at or
    before [t], was not stopped, and has not reached the end of its buffer;
    [start] clamps the offset into the buffer. *)
Definition is_active (t : Q) (n : SourceNode) : bool :=
  match n_started n, n_buffer n with
  | Some (t0, offset), Some d =>
      negb (n_stopped n) && Qle_bool t0 t
      && Qlt_bool t (t0 + (d - Qmin (Qmax offset 0) d))
  | _, _ => false
  end.

Definition active_sources (t : Q) (s : Player) : list SourceNode :=
  filter (λ n, is_active t n = true) (ctx_sources s).

(** What the view and the listener can observe of a player. *)
Definition observable (s : Player) : bool * Q * Q * list SourceNode :=
  (isPlaying s, progress s, volume s, active_sources (ctx_currentTime s) s).

(** A node is dead at [t] when it sounds at no time from [t] on. *)
Definition dead (t : Q) (n : SourceNode) : Prop :=
  ∀ t', t <= t' → is_active t' n = false.

(** ** The states the handlers end in

    Names for the states that the handlers and events are shown, in the
    second part, to end in.  They are no second definition of the
    handlers: every one of them is tied to its handler by a lemma. *)

Definition started_source (d : Q) (g : nat) (t offset : Q) : SourceNode :=
  {| n_buffer := Some d; n_output := Some g; n_started := Some (t, offset);
     n_stopped := false |}.

(** The state [playAudio] leaves behind when there is a buffer of duration
    [d] and the render it belongs to has closure [c]. *)
Definition played (c : Closure) (d : Q) (s : Player) : Player :=
  let offset := c_progress c / 100 * d in
  {| session_audioBuffer := session_audioBuffer s; isPlaying := true;
     progress := progress s; volume := volume s;
     audioSourceRef := Some (length (ctx_sources s));
     startTimeRef := ctx_currentTime s - offset;
     pauseTimeRef := pauseTimeRef s; animationFrameRef := raf_next s;
     gainNodeRef := Some (length (ctx_gains s));
     ctx_currentTime := ctx_currentTime s; ctx_state := running;
     ctx_sources :=
       ctx_sources s ++
       [started_source d (length (ctx_gains s))
          (Qmax 0 (ctx_currentTime s)) offset];
     ctx_gains :=
       ctx_gains s
       ++ [{| g_value := fround (c_volume c); g_toDestination := true |}];
     raf_next := S (raf_next s);
     raf_pending := raf_pending s ++ [(raf_next s, c)] |}.

(** What [stop] does to a node, a throwing [stop] leaving it as it is. *)
Definition stop_node (n : SourceNode) : SourceNode :=
  match n_started n with
  | Some _ => if n_stopped n then n else with_stopped n
  | None => n
  end.

Definition cancelled (id : nat) (pending : list (nat * Closure))
  : list (nat * Closure) :=
  if decide (id ≠ 0%nat) then filter (λ f : nat * Closure, f.1 ≠ id) pending
  else pending.

Definition stopped (s : Player) : Player :=
  {| session_audioBuffer := session_audioBuffer s; isPlaying := isPlaying s;
     progress := progress s; volume := volume s;
     audioSourceRef := None; startTimeRef := startTimeRef s;
     pauseTimeRef := pauseTimeRef s; animationFrameRef := animationFrameRef s;
     gainNodeRef := gainNodeRef s; ctx_currentTime := ctx_currentTime s;
     ctx_state := ctx_state s;
     ctx_sources :=
       match audioSourceRef s with
       | Some h => alter stop_node h (ctx_sources s)
       | None => ctx_sources s
       end;
     ctx_gains := ctx_gains s; raf_next := raf_next s;
     raf_pending := cancelled (animationFrameRef s) (raf_pending s) |}.

(** The value [updateProgress] computes for [currentProgress]. *)
Definition currentProgress (d : Q) (s : Player) : Q :=
  Qmin ((ctx_currentTime s - startTimeRef s) / d * 100) 100.

(** The state after a click on play: [playAudio], then the render with
    [isPlaying = true], whose effect replaces the frame request of
    [playAudio] by one for its own [updateProgress]. *)
Definition resumed (d : Q) (s : Player) : Player :=
  let s1 := played (render s) d s in
  set_animationFrameRef (raf_next s1)
    (set_raf (S (raf_next s1))
       (cancelled (animationFrameRef s1) (raf_pending s1)
        ++ [(raf_next s1, render s1)]) s1).

Definition restarted (s : Player) : Player :=
  set_startTimeRef (ctx_currentTime s)
    (set_progress 0 (set_isPlaying false (stopped s))).

Definition volume_changed (newVol : Q) (s : Player) : Player :=
  set_ctx_gains
    match gainNodeRef s with
    | Some h => alter (with_value newVol) h (ctx_gains s)
    | None => ctx_gains s
    end
    (set_volume newVol s).

(** The frame at the head of the queue is taken off before it runs. *)
Definition popped (s : Player) : Player :=
  set_raf (raf_next s) (tail (raf_pending s)) s.

(** The state after the frame on which the elapsed time has reached the
    duration of the buffer. *)
Definition completed (d : Q) (s : Player) : Player :=
  let s1 :=
    set_progress 100
      (set_isPlaying false (set_progress (currentProgress d s) (popped s))) in
  if isPlaying s
  then set_raf (raf_next s1)
         (cancelled (animationFrameRef s1) (raf_pending s1)) s1
  else s1.

(** ** Reachable states, the invariant and the transitions *)

Section Model.
(** The audio buffer of the session: its duration, or [None] when speech
    synthesis failed. *)
Variable buf : option Q.

(** The states of a mounted player: the first render, then any events at
    non-decreasing context times.  [Unmount] ends the life of a player
    and is looked at on its own. *)
Inductive reachable : Player → Prop :=
| reach_mount st t0 :
    0 <= t0 → reachable (mount buf st t0)
| reach_step s t e s' :
    reachable s → e ≠ Unmount → ctx_currentTime s <= t →
    step t e s = Done () s' →
    reachable s'.

Record Inv (s : Player) : Prop := {
  inv_buffer : session_audioBuffer s = buf;
  inv_clock : 0 <= ctx_currentTime s;
  inv_progress : 0 <= progress s <= 100;
  inv_raf_next : raf_next s ≠ 0%nat;
  (* no frame is pending while paused *)
  inv_paused : isPlaying s = false → raf_pending s = [];
  (* while playing, exactly the frame of the playing render is pending,
     and the stored progress does not run ahead of the anchor *)
  inv_playing :
    isPlaying s = true →
    ∃ c d, raf_pending s = [(animationFrameRef s, c)]
           ∧ c_isPlaying c = true ∧ animationFrameRef s ≠ 0%nat
           ∧ buf = Some d
           ∧ progress s
             <= (ctx_currentTime s - startTimeRef s) / d * 100;
  (* the node the ref holds plays the buffer, anchored at [startTimeRef] *)
  inv_owned :
    ∀ h, audioSourceRef s = Some h →
    ∃ n d t0 off, ctx_sources s !! h = Some n
                  ∧ buf = Some d ∧ n_buffer n = Some d
                  ∧ n_started n = Some (t0, off)
                  ∧ 0 <= off <= d ∧ t0 - off == startTimeRef s;
  (* every other node is silent for good *)
  inv_others :
    ∀ h n, ctx_sources s !! h = Some n →
    dead (ctx_currentTime s) n
    ∨ (isPlaying s = true ∧ audioSourceRef s = Some h);
}.

(** What an event does to a state that satisfies the invariant: the
    transitions of the player. *)
Inductive transition (s : Player) : Event → Player → Prop :=
| tr_pause :
    isPlaying s = true →
    transition s Toggle (set_isPlaying false (stopped s))
| tr_play_idle :
    isPlaying s = false → buf = None →
    transition s Toggle s
| tr_play d :
    isPlaying s = false → buf = Some d →
    transition s Toggle (resumed d s)
| tr_restart :
    transition s Restart (restarted s)
| tr_volume newVol :
    transition s (VolumeChange newVol) (volume_changed newVol s)
| tr_frame_none :
    isPlaying s = false → raf_pending s = [] →
    transition s Frame s
| tr_frame_continue c d :
    isPlaying s = true → raf_pending s = [(animationFrameRef s, c)] →
    c_isPlaying c = true → buf = Some d →
    progress s <= (ctx_currentTime s - startTimeRef s) / d * 100 →
    currentProgress d s < 100 →
    transition s Frame
      (set_animationFrameRef (raf_next s)
         (set_raf (S (raf_next s)) [(raf_next s, c)]
            (set_progress (currentProgress d s) s)))
| tr_frame_complete c d :
    isPlaying s = true → raf_pending s = [(animationFrameRef s, c)] →
    buf = Some d →
    100 <= currentProgress d s →
    transition s Frame (completed d s).

End Model.

(** Traces that the clock and the life cycle allow. *)
Definition is_unmountb (e : Event) : bool :=
  match e with Unmount => true | _ => false end.

Fixpoint admissible (tr : list (Q * Event)) (s : Player) : bool :=
  match tr with
  | [] => true
  | (t, e) :: tr' =>
      Qle_bool (ctx_currentTime s) t && negb (is_unmountb e)
      && match step t e s with
         | Done _ s' => admissible tr' s'
         | Thrown _ _ => false
         end
  end.

(** ** The scenario of the specification

    A buffer of 10 seconds: play at 0, half way at 5, pause at 5, still
    half way at 8, play at 8, 80 percent at 11, complete at 13. *)

Definition session10 : Player := mount (Some 10) suspended 0.

Definition half_played : Player :=
  final (run [(0, Toggle); (5, Frame)] session10).

Definition played_out : Player :=
  final (run [(0, Toggle); (10, Frame)] session10).

(** ** The audio graph of a mounted player *)

Section Wiring.
Variable buf : option Q.

(** How the nodes the player has created hang together. *)
Record Wired (s : Player) : Prop := {
  (* a source node carries the buffer of the session, was started, and
     feeds the gain node created with it *)
  wired_sources :
    ∀ h n, ctx_sources s !! h = Some n →
    n_buffer n = buf ∧ n_output n = Some h ∧ is_Some (n_started n);
  (* every gain node feeds the destination *)
  wired_gains :
    ∀ g gn, ctx_gains s !! g = Some gn → g_toDestination gn = true;
  wired_count : length (ctx_gains s) = length (ctx_sources s);
  (* the gain node in the ref carries the stored volume, in single
     precision *)
  wired_volume :
    ∀ g, gainNodeRef s = Some g →
    ∃ gn, ctx_gains s !! g = Some gn ∧ g_value gn = fround (volume s);
  wired_owned : ∀ h, audioSourceRef s = Some h → gainNodeRef s = Some h;
  wired_playing : isPlaying s = true → is_Some (audioSourceRef s);
  wired_running : ctx_sources s ≠ [] → ctx_state s = running;
  wired_pauseTime : pauseTimeRef s = 0;
}.

End Wiring.

(** ** The arithmetic in double precision

    The numbers of the component are binary64.  [Double] carries them
    through [playAudio], [updateProgress] and [pauseAudio] with every
    operation of the source rounded as the platform rounds it.  It keeps
    what the arithmetic reads and writes: the duration of the buffer, the
    state variables isPlaying and progress, the ref startTimeRef, the
    context time and the offset of every [source.start], and whether a
    frame of [updateProgress] is requested.  The nodes, the refs to them
    and the frame queue are those of the first model; there a pending
    frame always belongs to a render in which isPlaying is true, and so
    the test [currentProgress < 100 && isPlaying] is the test on
    [currentProgress] alone. *)
Module Double.
Import PrimFloat.
Local Open Scope float_scope.

(** [Math.min]: NaN when an argument is, and -0 below +0. *)
Definition Math_min (x y : float) : float :=
  if is_nan x || is_nan y then nan
  else if x <? y then x
  else if y <? x then y
  else if get_sign x then x else y.

Record Player : Type := {
  duration : float;               (* session.audioBuffer.duration *)
  isPlaying : bool;
  progress : float;
  startTimeRef : float;
  starts : list (float * float);  (* context time and offset of each start *)
  frameRequested : bool;
}.

Definition mount (duration : float) : Player :=
  {| duration := duration; isPlaying := false; progress := 0;
     startTimeRef := 0; starts := []; frameRequested := false |}.

Definition playAudio (now : float) (s : Player) : Player :=
  let offset := (progress s / 100) * duration s in
  {| duration := duration s; isPlaying := true; progress := progress s;
     startTimeRef := now - offset; starts := starts s ++ [(now, offset)];
     frameRequested := true |}.

Definition updateProgress (now : float) (s : Player) : Player :=
  let elapsedTime := now - startTimeRef s in
  let currentProgress := Math_min ((elapsedTime / duration s) * 100) 100 in
  if currentProgress <? 100 then
    {| duration := duration s; isPlaying := isPlaying s;
       progress := currentProgress; startTimeRef := startTimeRef s;
       starts := starts s; frameRequested := true |}
  else if 100 <=? currentProgress then
    {| duration := duration s; isPlaying := false; progress := 100;
       startTimeRef := startTimeRef s; starts := starts s;
       frameRequested := false |}
  else
    {| duration := duration s; isPlaying := isPlaying s;
       progress := currentProgress; startTimeRef := startTimeRef s;
       starts := starts s; frameRequested := false |}.

Definition pauseAudio (s : Player) : Player :=
  {| duration := duration s; isPlaying := false; progress := progress s;
     startTimeRef := startTimeRef s; starts := starts s;
     frameRequested := false |}.

Definition togglePlay (now : float) (s : Player) : Player :=
  if isPlaying s then pauseAudio s else playAudio now s.

Inductive Event : Type :=
| Toggle
| Frame.

(** An event at context time [now]. *)
Definition step (now : float) (e : Event) (s : Player) : Player :=
  match e with
  | Toggle => togglePlay now s
  | Frame => if frameRequested s then updateProgress now s else s
  end.

Definition run (tr : list (float * Event)) (s : Player) : Player :=
  foldl (λ s '(now, e), step now e s) s tr.

(** The position [updateProgress] would compute at context time [now]. *)
Definition positionAt (now : float) (s : Player) : float :=
  Math_min (((now - startTimeRef s) / duration s) * 100) 100.

(** A buffer of 35 seconds is played for 33 seconds and paused; play is
    clicked again a second later. *)
Definition paused_at_33 : Player :=
  run [(0, Toggle); (33, Frame); (33, Toggle)] (mount 35).

Definition resumed_at_34 : Player := step 34 Toggle paused_at_33.

(** A buffer of 1955616 samples at 24000 Hz is played to its end, and
    play is clicked again at context time 210. *)
Definition played_to_end : Player :=
  run [(0, Toggle); (100, Frame)] (mount (1955616 / 24000)).

Definition played_again : Player := step 210 Toggle played_to_end.

End Double.

(** ** JavaScript strings

    A string is its sequence of UTF-16 code units.  The literals of the
    source are ASCII and are written with [js]. *)

Definition jsstring : Type := list N.

Definition js (s : string) : jsstring :=
  Ascii.N_of_ascii <$> String.list_ascii_of_string s.
Arguments js s%_string.

(** A string is truthy when it is not empty. *)
Definition truthy (s : jsstring) : bool :=
  match s with [] => false | _ => true end.

(** [a || b] on strings, and on a string that may be [undefined]. *)
Definition str_or (a b : jsstring) : jsstring := if truthy a then a else b.

Definition opt_or (a : option jsstring) (b : jsstring) : jsstring :=
  match a with Some s => str_or s b | None => b end.

(** The code units [trim] removes: WhiteSpace and LineTerminator of
    ECMAScript. *)
Definition is_whitespace (c : N) : bool :=
  ((9 <=? c) && (c <=? 13) || (c =? 32) || (c =? 160) || (c =? 5760)
   || (8192 <=? c) && (c <=? 8202) || (c =? 8232) || (c =? 8233)
   || (c =? 8239) || (c =? 8287) || (c =? 12288) || (c =? 65279))%N.

Fixpoint trimStart (s : jsstring) : jsstring :=
  match s with
  | [] => []
  | c :: s' => if is_whitespace c then trimStart s' else s
  end.

Definition trim (s : jsstring) : jsstring :=
  rev (trimStart (rev (trimStart s))).

(** [s.split(sep)] for a separator of one code unit: the pieces between
    the occurrences of [sep]; the empty string gives one empty piece. *)
Fixpoint split_on (sep : N) (s : jsstring) : list jsstring :=
  match s with
  | [] => [[]]
  | c :: s' =>
      if (c =? sep)%N then [] :: split_on sep s'
      else match split_on sep s' with
           | piece :: pieces => (c :: piece) :: pieces
           | [] => [[c]]
           end
  end.

(** [pieces.join(sep)]. *)
Fixpoint join_with (sep : N) (pieces : list jsstring) : jsstring :=
  match pieces with
  | [] => []
  | [piece] => piece
  | piece :: pieces' => piece ++ sep :: join_with sep pieces'
  end.

(** The paragraphs of the script panel of the player:
    [session.script.split('\n').map((line, i) => <p key={i}>{line}</p>)],
    each paragraph with its key. *)
Definition scriptParagraphs (script : jsstring) : list (nat * jsstring) :=
  imap (λ i line, (i, line)) (split_on 10 script).

(** ** The services ([services/gemini])

    The remote service, [JSON.parse] and the two helpers of [utils/audio]
    are taken as they answer: every property below holds for any answers
    they give.  [console.error] is not represented. *)

Module Gemini.

(** What a promise can be rejected with. *)
Inductive Failure : Type :=
| RemoteFailure (msg : jsstring)
| SyntaxError
| TypeError
| DecodeFailure
| Error (msg : jsstring).

Inductive Settled (A : Type) : Type :=
| Fulfilled (a : A)
| Rejected (e : Failure).
Arguments Fulfilled {A} a.
Arguments Rejected {A} e.

(** [await m] followed by [k], and [try m catch h]. *)
Definition andThen {A B} (m : Settled A) (k : A → Settled B) : Settled B :=
  match m with
  | Fulfilled a => k a
  | Rejected e => Rejected e
  end.

Definition tryCatch {A} (m : Settled A) (h : Failure → Settled A)
  : Settled A :=
  match m with
  | Fulfilled a => Fulfilled a
  | Rejected e => h e
  end.

(** [MeditationSession] of [types.ts]; the audio buffer is represented by
    its duration. *)
Record MeditationSession : Type := {
  title : jsstring;
  script : jsstring;
  imagePrompt : jsstring;
  imageUrl : option jsstring;
  audioBuffer : option Q;
}.

(** The requests the services send.  The constant configuration objects
    are left out but for the fields named here. *)
Inductive Request : Type :=
| JsonRequest (model contents responseMimeType : jsstring)
| SpeechRequest (model text voiceName : jsstring)
| ImageRequest (model prompt outputMimeType aspectRatio : jsstring)
    (numberOfImages : nat).

(** The parts of a [generateContent] response that the services read. *)
Record Blob : Type := { data : option jsstring }.
Record Part : Type := { inlineData : option Blob }.
Record Content : Type := { parts : option (list Part) }.
Record Candidate : Type := { content : option Content }.
Record ContentResponse : Type := {
  text : option jsstring;
  candidates : option (list Candidate);
}.

(** The parts of a [generateImages] response that the services read. *)
Record Image : Type := { imageBytes : option jsstring }.
Record GeneratedImage : Type := { image : option Image }.
Record ImagesResponse : Type := {
  generatedImages : option (list GeneratedImage);
}.

(** What [generateMeditationContent] reads of the value [JSON.parse]
    returns for the reply to a [JsonRequest]: the three fields of the
    response schema, each a string when it is there. *)
Record Json : Type := {
  json_title : option jsstring;
  json_script : option jsstring;
  json_imagePrompt : option jsstring;
}.

Definition quote : jsstring := [34%N].
Definition newline : jsstring := [10%N].

(** The template literal of [generateMeditationContent]. *)
Definition contentPrompt (mood focus duration : jsstring) : jsstring :=
  newline
  ++ js "    Create a guided meditation script for a user who is feeling "
  ++ quote ++ mood ++ quote ++ js " and wants to focus on "
  ++ quote ++ focus ++ quote ++ js "." ++ newline
  ++ js "    The duration should be roughly " ++ duration
  ++ js " (Short = 100 words, Medium = 200 words, Long = 300 words)."
  ++ newline
  ++ js "    " ++ newline
  ++ js "    Return a JSON object with:" ++ newline
  ++ js "    1. " ++ quote ++ js "title" ++ quote
  ++ js ": A calming title for the session." ++ newline
  ++ js "    2. " ++ quote ++ js "script" ++ quote
  ++ js ": The spoken text for the meditation guide. It should be soothing, spaced out, and direct."
  ++ newline
  ++ js "    3. " ++ quote ++ js "imagePrompt" ++ quote
  ++ js ": A detailed, artistic prompt to generate a serene background image using an AI image generator. Describe a scene that matches the mood (e.g., "
  ++ quote ++ js "A misty forest at dawn with soft golden light" ++ quote
  ++ js ")." ++ newline
  ++ js "  ".

Definition fallbackImage : jsstring := js "https://picsum.photos/800/1200".

Section Services.
(** [ai.models.generateContent], [ai.models.generateImages],
    [JSON.parse] ([None] when it throws, [Some None] when it returns
    [null]), and [decode] and [decodeAudioData] of [utils/audio], the
    latter yielding the duration of the decoded buffer. *)
Variable generateContent : Request → Settled ContentResponse.
Variable generateImages : Request → Settled ImagesResponse.
Variable JSON_parse : jsstring → option (option Json).
Variable Bytes : Type.
Variable decode : jsstring → Settled Bytes.
Variable decodeAudioData : Bytes → N → N → Settled Q.

Definition generateMeditationContent (mood focus duration : jsstring)
  : Settled MeditationSession :=
  let model := js "gemini-3-pro-preview" in
  let prompt := contentPrompt mood focus duration in
  andThen (generateContent (JsonRequest model prompt (js "application/json")))
    (λ response,
       match JSON_parse (opt_or (text response) (js "{}")) with
       | None => Rejected SyntaxError
       | Some None => Rejected TypeError
       | Some (Some json) =>
           Fulfilled
             {| title := opt_or (json_title json) (js "Meditation Session");
                script := opt_or (json_script json) [];
                imagePrompt :=
                  opt_or (json_imagePrompt json)
                    (js "A peaceful abstract landscape with soft colors");
                imageUrl := None; audioBuffer := None |}
       end).

Definition generateMeditationImage (prompt : jsstring) : Settled jsstring :=
  tryCatch
    (andThen
       (generateImages
          (ImageRequest (js "imagen-4.0-generate-001")
             (prompt
              ++ js ", photorealistic, 8k, serene, cinematic lighting, peaceful atmosphere")
             (js "image/jpeg") (js "3:4") 1))
       (λ response,
          let base64ImageBytes :=
            imgs ← generatedImages response;
            img ← imgs !! 0%nat;
            i ← image img;
            imageBytes i in
          match base64ImageBytes with
          | Some bytes =>
              if truthy bytes
              then Fulfilled (js "data:image/jpeg;base64," ++ bytes)
              else Fulfilled fallbackImage
          | None => Fulfilled fallbackImage
          end))
    (λ _, Fulfilled fallbackImage).

Definition generateMeditationAudio (text : jsstring) : Settled (option Q) :=
  tryCatch
    (andThen
       (generateContent
          (SpeechRequest (js "gemini-2.5-flash-preview-tts") text (js "Kore")))
       (λ response,
          let base64Audio :=
            cs ← candidates response;
            c ← cs !! 0%nat;
            ct ← content c;
            ps ← parts ct;
            p ← ps !! 0%nat;
            b ← inlineData p;
            data b in
          match base64Audio with
          | Some audio =>
              if truthy audio
              then andThen (decode audio)
                     (λ bytes,
                        andThen (decodeAudioData bytes 24000%N 1%N)
                          (λ audioBuffer, Fulfilled (Some audioBuffer)))
              else Rejected (Error (js "No audio data returned"))
          | None => Rejected (Error (js "No audio data returned"))
          end))
    (λ _, Fulfilled None).

End Services.

(** *** The chat with the guide

    [chatSession] is a variable of the module; [chats] lists, for every
    chat [ai.chats.create] has made, the messages sent to it, oldest
    first.  [ai.chats.create] is taken to return. *)
Record State : Type := {
  chatSession : option nat;
  chats : list (list jsstring);
}.

Definition initial : State := {| chatSession := None; chats := [] |}.

Definition getChatSession (s : State) : nat * State :=
  match chatSession s with
  | None =>
      let chat := length (chats s) in
      (chat, {| chatSession := Some chat; chats := chats s ++ [[]] |})
  | Some chat => (chat, s)
  end.

(** What [sendMessageToGuide] makes of the outcome of [chat.sendMessage],
    whose result carries a text that may be missing. *)
Definition guideReply (outcome : Settled (option jsstring)) : Settled jsstring :=
  tryCatch
    (andThen outcome
       (λ result_text,
          Fulfilled
            (opt_or result_text
               (js "I am here with you. Take a deep breath."))))
    (λ _,
       Fulfilled
         (js "I'm having trouble connecting to the universal energy (API error). Please try again.")).

Section Guide.
(** [chat.sendMessage] for the chat [chat], to which [sent] went before. *)
Variable sendMessage :
  nat → list jsstring → jsstring → Settled (option jsstring).

Definition sendMessageToGuide (message : jsstring) (s : State)
  : Settled jsstring * State :=
  let '(chat, s1) := getChatSession s in
  let sent := default [] (chats s1 !! chat) in
  (guideReply (sendMessage chat sent message),
   {| chatSession := chatSession s1;
      chats := <[chat := sent ++ [message]]> (chats s1) |}).

(** A conversation: the messages go to the guide one after the other. *)
Fixpoint converse (messages : list jsstring) (s : State)
  : list (Settled jsstring) * State :=
  match messages with
  | [] => ([], s)
  | m :: ms =>
      let '(r, s1) := sendMessageToGuide m s in
      let '(rs, s2) := converse ms s1 in
      (r :: rs, s2)
  end.

End Guide.

End Gemini.

(** ** The chat widget ([components/ChatWidget])

    [handleSend] is an async function: it runs up to its [await] when the
    user sends, and its remainder runs when the promise of
    [sendMessageToGuide] settles.  [pending] lists the calls that await,
    each with the text it has sent.  [new Date()] is handed to the events
    as a number.  The scrolling effect is not represented. *)

Module ChatWidget.

Inductive Role : Type := user | model.

#[global] Instance Role_eq_dec : EqDecision Role.
Proof. solve_decision. Defined.

(** [ChatMessage] of [types.ts]. *)
Record ChatMessage : Type := {
  role : Role;
  text : jsstring;
  timestamp : N;
}.

Record Widget : Type := {
  isOpen : bool;
  input : jsstring;
  messages : list ChatMessage;
  isTyping : bool;
  pending : list jsstring;
}.

Definition greeting : jsstring :=
  js "Namaste. How can I support your journey today?".

Definition mount (now : N) : Widget :=
  {| isOpen := false; input := [];
     messages := [{| role := model; text := greeting; timestamp := now |}];
     isTyping := false; pending := [] |}.

(** [handleSend] up to the [await]. *)
Definition handleSend (now : N) (w : Widget) : Widget :=
  if negb (truthy (trim (input w))) || isTyping w then w
  else
    let userMsg := {| role := user; text := input w; timestamp := now |} in
    {| isOpen := isOpen w; input := [];
       messages := messages w ++ [userMsg];
       isTyping := true;
       pending := pending w ++ [text userMsg] |}.

(** The rest of the [i]-th awaiting call of [handleSend], once
    [sendMessageToGuide] has settled with [r]. *)
Definition handleSend_settled (i : nat) (r : Gemini.Settled jsstring)
    (now : N) (w : Widget) : Widget :=
  match pending w !! i with
  | None => w
  | Some _ =>
      {| isOpen := isOpen w; input := input w;
         messages :=
           match r with
           | Gemini.Fulfilled responseText =>
               messages w
               ++ [{| role := model; text := responseText;
                      timestamp := now |}]
           | Gemini.Rejected _ => messages w
           end;
         isTyping := false;
         pending := delete i (pending w) |}
  end.

Inductive Event : Type :=
| TypeInput (value : jsstring)
| Send (now : N)
| Settle (i : nat) (r : Gemini.Settled jsstring) (now : N)
| ToggleOpen
| Close.

Definition handle (e : Event) (w : Widget) : Widget :=
  match e with
  | TypeInput value =>
      {| isOpen := isOpen w; input := value; messages := messages w;
         isTyping := isTyping w; pending := pending w |}
  | Send now => handleSend now w
  | Settle i r now => handleSend_settled i r now w
  | ToggleOpen =>
      {| isOpen := negb (isOpen w); input := input w;
         messages := messages w; isTyping := isTyping w;
         pending := pending w |}
  | Close =>
      {| isOpen := false; input := input w; messages := messages w;
         isTyping := isTyping w; pending := pending w |}
  end.

(** The input field, the send button and the close button exist only
    while the window is open; a promise settles only if it is awaited. *)
Definition enabled (e : Event) (w : Widget) : bool :=
  match e with
  | TypeInput _ | Send _ | Close => isOpen w
  | Settle i _ _ => bool_decide (is_Some (pending w !! i))
  | ToggleOpen => true
  end.

Inductive reachable : Widget → Prop :=
| reach_mount now : reachable (mount now)
| reach_step w e :
    reachable w → enabled e w = true → reachable (handle e w).

(** The widget together with the service: what settles is a promise of
    [sendMessageToGuide]. *)
Inductive reachable_with_guide : Widget → Prop :=
| guided_mount now : reachable_with_guide (mount now)
| guided_settle w i outcome now :
    reachable_with_guide w → enabled (Settle i (Gemini.guideReply outcome) now) w = true →
    reachable_with_guide (handle (Settle i (Gemini.guideReply outcome) now) w)
| guided_step w e :
    reachable_with_guide w → enabled e w = true →
    (∀ i r now, e ≠ Settle i r now) →
    reachable_with_guide (handle e w).

Definition other_role (r : Role) : Role :=
  match r with user => model | model => user end.

(** Whether the roles alternate, beginning with [first]. *)
Fixpoint alternating (first : Role) (ms : list ChatMessage) : bool :=
  match ms with
  | [] => true
  | m :: ms' =>
      match first, role m with
      | model, model => alternating user ms'
      | user, user => alternating model ms'
      | _, _ => false
      end
  end.

End ChatWidget.

(** ** The application ([App])

    [handleGenerate] is an async function with two [await]s; [tasks] lists
    its calls that await, with what they hold at that point, and [timers]
    counts the pending [setTimeout] callbacks. *)

Module App.

(** [AppView] and [GenerationParams] of [types.ts]. *)
Inductive AppView : Type := HOME | GENERATING | PLAYER.

Record GenerationParams : Type := {
  mood : jsstring;
  duration : jsstring;
  focus : jsstring;
}.

Inductive Task : Type :=
| AwaitContent (p : GenerationParams)
| AwaitMedia (content : Gemini.MeditationSession).

Record App : Type := {
  view : AppView;
  params : GenerationParams;
  session : option Gemini.MeditationSession;
  loadingStep : jsstring;
  tasks : list Task;
  timers : nat;
}.

Definition mount : App :=
  {| view := HOME;
     params := {| mood := []; duration := js "Short"; focus := [] |};
     session := None; loadingStep := []; tasks := []; timers := 0 |}.

Definition set_view (v : AppView) (a : App) : App :=
  {| view := v; params := params a; session := session a;
     loadingStep := loadingStep a; tasks := tasks a; timers := timers a |}.

Definition set_params (p : GenerationParams) (a : App) : App :=
  {| view := view a; params := p; session := session a;
     loadingStep := loadingStep a; tasks := tasks a; timers := timers a |}.

(** [handleGenerate] up to its first [await]; the call of
    [generateMeditationContent] on the parameters is under way. *)
Definition handleGenerate (a : App) : App :=
  if negb (truthy (mood (params a))) || negb (truthy (focus (params a)))
  then a
  else
    {| view := GENERATING; params := params a; session := session a;
       loadingStep :=
         js "Connecting to cosmic energy (Writing script)...";
       tasks := tasks a ++ [AwaitContent (params a)];
       timers := timers a |}.

(** The [catch] clause of [handleGenerate], ending the [i]-th call. *)
Definition handleGenerate_failed (i : nat) (a : App) : App :=
  {| view := view a; params := params a; session := session a;
     loadingStep := js "Error connecting. Please try again.";
     tasks := delete i (tasks a);
     timers := S (timers a) |}.

(** The [i]-th call after its first [await]: the calls of
    [generateMeditationImage] and [generateMeditationAudio] on the content
    are under way. *)
Definition handleGenerate_content (i : nat)
    (r : Gemini.Settled Gemini.MeditationSession) (a : App) : App :=
  match tasks a !! i with
  | Some (AwaitContent _) =>
      match r with
      | Gemini.Fulfilled content =>
          {| view := view a; params := params a; session := session a;
             loadingStep :=
               js "Visualizing serenity & synthesizing voice...";
             tasks := <[i := AwaitMedia content]> (tasks a);
             timers := timers a |}
      | Gemini.Rejected _ => handleGenerate_failed i a
      end
  | _ => a
  end.

(** [Promise.all] of two promises. *)
Definition all2 {A B} (x : Gemini.Settled A) (y : Gemini.Settled B)
  : Gemini.Settled (A * B) :=
  match x, y with
  | Gemini.Fulfilled a, Gemini.Fulfilled b => Gemini.Fulfilled (a, b)
  | Gemini.Rejected e, _ => Gemini.Rejected e
  | _, Gemini.Rejected e => Gemini.Rejected e
  end.

(** The [i]-th call after its second [await]. *)
Definition handleGenerate_media (i : nat)
    (image : Gemini.Settled jsstring) (audio : Gemini.Settled (option Q))
    (a : App) : App :=
  match tasks a !! i with
  | Some (AwaitMedia content) =>
      match all2 image audio with
      | Gemini.Fulfilled (imageUrl, audioBuffer) =>
          {| view := PLAYER; params := params a;
             session :=
               Some {| Gemini.title := Gemini.title content;
                       Gemini.script := Gemini.script content;
                       Gemini.imagePrompt := Gemini.imagePrompt content;
                       Gemini.imageUrl := Some imageUrl;
                       Gemini.audioBuffer := audioBuffer |};
             loadingStep := loadingStep a;
             tasks := delete i (tasks a);
             timers := timers a |}
      | Gemini.Rejected _ => handleGenerate_failed i a
      end
  | _ => a
  end.

Inductive Event : Type :=
| TypeMood (value : jsstring)
| TypeFocus (value : jsstring)
| PickDuration (d : jsstring)
| Generate
| ContentSettled (i : nat) (r : Gemini.Settled Gemini.MeditationSession)
| MediaSettled (i : nat) (image : Gemini.Settled jsstring)
    (audio : Gemini.Settled (option Q))
| TimerFired
| HeaderClick
| PlayerReset.

Definition handle (e : Event) (a : App) : App :=
  match e with
  | TypeMood value =>
      set_params {| mood := value; duration := duration (params a);
                    focus := focus (params a) |} a
  | TypeFocus value =>
      set_params {| mood := mood (params a); duration := duration (params a);
                    focus := value |} a
  | PickDuration d =>
      set_params {| mood := mood (params a); duration := d;
                    focus := focus (params a) |} a
  | Generate => handleGenerate a
  | ContentSettled i r => handleGenerate_content i r a
  | MediaSettled i image audio => handleGenerate_media i image audio a
  | TimerFired =>
      {| view := HOME; params := params a; session := session a;
         loadingStep := loadingStep a; tasks := tasks a;
         timers := pred (timers a) |}
  | HeaderClick => set_view HOME a
  | PlayerReset => set_view HOME a
  end.

(** Whether the player is on the page:
    [view === AppView.PLAYER && session]. *)
Definition playerShown (a : App) : bool :=
  match view a, session a with
  | PLAYER, Some _ => true
  | _, _ => false
  end.

(** The form is on the page only at [HOME], its button is disabled until
    mood and focus are filled in, the duration buttons offer three
    values; the player's reset needs the player; promises and timers
    fire only when pending. *)
Definition enabled (e : Event) (a : App) : bool :=
  match e with
  | TypeMood _ | TypeFocus _ =>
      match view a with HOME => true | _ => false end
  | PickDuration d =>
      match view a with HOME => true | _ => false end
      && bool_decide (d ∈ [js "Short"; js "Medium"; js "Long"])
  | Generate =>
      match view a with HOME => true | _ => false end
      && truthy (mood (params a)) && truthy (focus (params a))
  | ContentSettled i _ =>
      match tasks a !! i with Some (AwaitContent _) => true | _ => false end
  | MediaSettled i _ _ =>
      match tasks a !! i with Some (AwaitMedia _) => true | _ => false end
  | TimerFired => bool_decide (timers a ≠ 0%nat)
  | HeaderClick => true
  | PlayerReset => playerShown a
  end.

Inductive reachable : App → Prop :=
| reach_mount : reachable mount
| reach_step a e :
    reachable a → enabled e a = true → reachable (handle e a).

End App.

(** ** Example states of the services, the widget and the application *)

(** A service that answers without text and without candidates, and a
    parser that returns the empty object. *)
Definition silent_service (r : Gemini.Request)
  : Gemini.Settled Gemini.ContentResponse :=
  Gemini.Fulfilled {| Gemini.text := None; Gemini.candidates := None |}.

Definition empty_object (t : jsstring) : option (option Gemini.Json) :=
  Some (Some {| Gemini.json_title := None; Gemini.json_script := None;
                Gemini.json_imagePrompt := None |}).

(** A service whose reply is the text of an object with a title only,
    and a parser that knows this text and the text of the empty object
    and throws on every other. *)
Definition calm_text : jsstring :=
  js "{" ++ Gemini.quote ++ js "title" ++ Gemini.quote ++ js ":"
  ++ Gemini.quote ++ js "Calm" ++ Gemini.quote ++ js "}".

Definition calm_service (r : Gemini.Request)
  : Gemini.Settled Gemini.ContentResponse :=
  Gemini.Fulfilled {| Gemini.text := Some calm_text;
                      Gemini.candidates := None |}.

Definition parse_known (t : jsstring) : option (option Gemini.Json) :=
  if decide (t = calm_text) then
    Some (Some {| Gemini.json_title := Some (js "Calm");
                  Gemini.json_script := None;
                  Gemini.json_imagePrompt := None |})
  else if decide (t = js "{}") then
    Some (Some {| Gemini.json_title := None; Gemini.json_script := None;
                  Gemini.json_imagePrompt := None |})
  else None.

Definition calm_content : Gemini.MeditationSession :=
  {| Gemini.title := js "Calm"; Gemini.script := js "Breathe.";
     Gemini.imagePrompt := js "A lake"; Gemini.imageUrl := None;
     Gemini.audioBuffer := None |}.

(** The widget after the user has opened it, typed and sent. *)
Definition chatting : ChatWidget.Widget :=
  ChatWidget.handle (ChatWidget.Send 2)
    (ChatWidget.handle (ChatWidget.TypeInput (js "hello"))
       (ChatWidget.handle ChatWidget.ToggleOpen (ChatWidget.mount 1))).

(** The application with the form filled in, with a generation under way,
    with its content there, and with the player of one generation on the
    page while a second generation awaits its media. *)
Definition filled_in : App.App :=
  App.handle (App.TypeFocus (js "Sleep"))
    (App.handle (App.TypeMood (js "Tired")) App.mount).

Definition generating : App.App := App.handle App.Generate filled_in.

Definition media_pending : App.App :=
  App.handle (App.ContentSettled 0 (Gemini.Fulfilled calm_content)) generating.

Definition overlapping : App.App :=
  App.handle
    (App.MediaSettled 0 (Gemini.Fulfilled Gemini.fallbackImage)
       (Gemini.Fulfilled (Some 10)))
    (App.handle (App.ContentSettled 1 (Gemini.Fulfilled calm_content))
       (App.handle App.Generate (App.handle App.HeaderClick media_pending))).

(** The source node of [half_played]. *)
Definition half_played_source : SourceNode :=
  started_source 10 0 (Qmax 0 0) (0 / 100 * 10).

(** * Proofs *)

(** ** Numbers *)

Lemma Qlt_bool_true x y : Qlt_bool x y = true ↔ x < y.
Proof.
  unfold Qlt_bool. rewrite negb_true_iff, <- not_true_iff_false, Qle_bool_iff.
  split; [apply Qnot_le_lt | apply Qlt_not_le].
Qed.

Lemma Qlt_bool_false x y : Qlt_bool x y = false ↔ y <= x.
Proof.
  unfold Qlt_bool. rewrite negb_false_iff. apply Qle_bool_iff.
Qed.

Lemma Qle_of_eq x y : x == y → x <= y.
Proof. intros H. rewrite H. apply Qle_refl. Qed.

(** [fround] on the initial volume and on numbers a gain holds exactly:
    the gain for the volume 0.8 is 0.800000011920929. *)
Example fround_values :
  fround (8 # 10) = 13421773 # 16777216
  ∧ fround (3 # 10) = 5033165 # 16777216
  ∧ fround 1 = 1 ∧ fround (1 # 2) = 1 # 2 ∧ fround 0 = 0
  ∧ fround (- (1 # 3)) = - (11184811 # 33554432).
Proof. by vm_compute. Qed.

(** ** Running the handlers *)

Ltac unfold_monad :=
  unfold skip, throw, try_catch, gets, modify, mbind, M_bind, mret, M_ret.

Ltac unfold_platform :=
  unfold source_start, source_stop, ctx_resume, createBufferSource,
    createGain, update_source, update_gain, requestAnimationFrame,
    cancelAnimationFrame, setIsPlaying, setProgress, setVolume.

Ltac msimpl :=
  cbn -[Qminus Qplus Qmult Qdiv Qmax Qmin Qlt_bool Qle_bool Qle Qlt
        filter alter lookup app length].

Ltac mrun := unfold_platform; unfold_monad; msimpl.

(** Two states are equal when their fields are. *)
Ltac fields :=
  cbn [session_audioBuffer isPlaying progress volume audioSourceRef
       startTimeRef pauseTimeRef animationFrameRef gainNodeRef
       ctx_currentTime ctx_state ctx_sources ctx_gains raf_next raf_pending
       c_isPlaying c_progress c_volume render] in *.

Ltac state_eq :=
  repeat match goal with s : Player |- _ => destruct s end;
  fields; subst; reflexivity.

Lemma alter_snoc {A} (f : A → A) (l : list A) (x : A) :
  alter f (length l) (l ++ [x]) = l ++ [f x].
Proof. induction l as [|y l IH]; [done|]. cbn. by f_equal. Qed.

Lemma lookup_snoc_length {A} (l : list A) (x : A) :
  (l ++ [x]) !! length l = Some x.
Proof. induction l as [|y l IH]; [done|]. exact IH. Qed.

Lemma alter_lookup_id {A} (f : A → A) (h : nat) (l : list A) :
  (∀ x, l !! h = Some x → f x = x) → alter f h l = l.
Proof.
  revert h. induction l as [|y l IH]; intros [|h] Hf; cbn; try done.
  - f_equal. by apply Hf.
  - f_equal. by apply IH.
Qed.

(** *** [playAudio] *)

Lemma playAudio_run c s d :
  session_audioBuffer s = Some d →
  0 <= c_progress c / 100 * d →
  playAudio c s = Done () (played c d s).
Proof.
  intros Hb Hoff. unfold playAudio. mrun. rewrite Hb.
  assert (Qlt_bool 0 0 || Qlt_bool (c_progress c / 100 * d) 0 = false) as ->.
  { apply orb_false_iff. split; apply Qlt_bool_false; [apply Qle_refl | done]. }
  destruct (ctx_state s) eqn:Hst; msimpl;
    rewrite !alter_snoc, lookup_snoc_length; msimpl; rewrite alter_snoc;
    state_eq.
Qed.

Lemma playAudio_no_buffer c s :
  session_audioBuffer s = None → playAudio c s = Done () s.
Proof. intros Hb. unfold playAudio. mrun. by rewrite Hb. Qed.

(** A negative offset makes [start] throw, and [playAudio] with it. *)
Lemma playAudio_negative c s d :
  session_audioBuffer s = Some d →
  c_progress c / 100 * d < 0 →
  ∃ s', playAudio c s = Thrown RangeError s'.
Proof.
  intros Hb Hoff. unfold playAudio. mrun. rewrite Hb.
  assert (Qlt_bool 0 0 || Qlt_bool (c_progress c / 100 * d) 0 = true) as ->.
  { apply orb_true_iff. right. by apply Qlt_bool_true. }
  destruct (ctx_state s); msimpl; eauto.
Qed.

(** *** [stopAudio] *)

(** The [try]/[catch] around [stop] never lets a fault through. *)
Lemma source_stop_caught h s :
  try_catch (source_stop h) (λ _, skip) s
  = Done () (set_ctx_sources (alter stop_node h (ctx_sources s)) s).
Proof.
  assert (∀ n, ctx_sources s !! h = Some n → stop_node n = n →
               alter stop_node h (ctx_sources s) = ctx_sources s) as Hid.
  { intros n Hn Hfix. apply alter_lookup_id. congruence. }
  mrun. destruct (ctx_sources s !! h) as [n|] eqn:Hn.
  - destruct (n_started n) as [p|] eqn:Hst.
    + destruct (n_stopped n) eqn:Hsp.
      * rewrite (Hid n); [by destruct s|done|]. unfold stop_node.
        by rewrite Hst, Hsp.
      * do 2 f_equal. apply list_alter_ext; [|done].
        intros x Hx. unfold stop_node. replace x with n by congruence.
        by rewrite Hst, Hsp.
    + rewrite (Hid n); [by destruct s|done|]. unfold stop_node.
      by rewrite Hst.
  - rewrite alter_lookup_id; [by destruct s|congruence].
Qed.

Lemma stopAudio_run s : stopAudio s = Done () (stopped s).
Proof.
  unfold stopAudio, mbind, M_bind, gets, stopped, cancelled.
  destruct (audioSourceRef s) as [h|] eqn:Href.
  - rewrite source_stop_caught. mrun. case_decide; state_eq.
  - mrun. case_decide; state_eq.
Qed.

Lemma pauseAudio_run s :
  pauseAudio s = Done () (set_isPlaying false (stopped s)).
Proof. unfold pauseAudio, mbind, M_bind. by rewrite stopAudio_run. Qed.

(** *** Effects and renders *)

Lemma cancelled_idem id l : cancelled id (cancelled id l) = cancelled id l.
Proof.
  unfold cancelled. case_decide; [|done].
  induction l as [|x l IH]; [done|].
  rewrite filter_cons. case_decide.
  - rewrite filter_cons_True by done. by f_equal.
  - done.
Qed.

Lemma cancelled_nil id : cancelled id [] = [].
Proof. unfold cancelled. by case_decide. Qed.

Lemma cancelled_single id c : id ≠ 0%nat → cancelled id [(id, c)] = [].
Proof.
  intros Hid. unfold cancelled. rewrite decide_True by done.
  by rewrite filter_cons_False, filter_nil by (cbn; auto).
Qed.

Lemma playingEffectCleanup_run s :
  playingEffectCleanup s
  = Done () (set_raf (raf_next s)
               (cancelled (animationFrameRef s) (raf_pending s)) s).
Proof.
  unfold playingEffectCleanup, cancelled. mrun.
  case_decide; [done|]. by destruct s.
Qed.

(** A render that does not change [isPlaying] runs no effect. *)
Lemma commit_same prev s :
  c_isPlaying prev = isPlaying s → commit prev s = Done () s.
Proof.
  intros Heq. unfold commit. mrun. by rewrite bool_decide_eq_true_2.
Qed.

Lemma commit_to_paused prev s :
  c_isPlaying prev = true → isPlaying s = false →
  commit prev s
  = Done () (set_raf (raf_next s)
               (cancelled (animationFrameRef s) (raf_pending s)) s).
Proof.
  intros Hprev Hs. unfold commit, mbind, M_bind, gets. cbn [render c_isPlaying].
  rewrite bool_decide_eq_false_2 by congruence.
  rewrite playingEffectCleanup_run. unfold playingEffect. mrun.
  by rewrite Hs.
Qed.

Lemma commit_to_playing prev s :
  c_isPlaying prev = false → isPlaying s = true →
  commit prev s
  = Done ()
      (set_animationFrameRef (raf_next s)
         (set_raf (S (raf_next s))
            (cancelled (animationFrameRef s) (raf_pending s)
             ++ [(raf_next s, render s)]) s)).
Proof.
  intros Hprev Hs. unfold commit, mbind, M_bind, gets. cbn [render c_isPlaying].
  rewrite bool_decide_eq_false_2 by congruence.
  rewrite playingEffectCleanup_run. unfold playingEffect. mrun.
  rewrite Hs. reflexivity.
Qed.

(** *** [updateProgress] *)

Lemma updateProgress_no_buffer c s :
  session_audioBuffer s = None → updateProgress c s = Done () s.
Proof. intros Hb. unfold updateProgress. mrun. by rewrite Hb. Qed.

Lemma updateProgress_continue c s d :
  session_audioBuffer s = Some d →
  currentProgress d s < 100 → c_isPlaying c = true →
  updateProgress c s
  = Done ()
      (set_animationFrameRef (raf_next s)
         (set_raf (S (raf_next s)) (raf_pending s ++ [(raf_next s, c)])
            (set_progress (currentProgress d s) s))).
Proof.
  intros Hb Hlt Hc. unfold updateProgress. mrun. rewrite Hb, Hc.
  fold (currentProgress d s).
  apply Qlt_bool_true in Hlt. by rewrite Hlt.
Qed.

Lemma updateProgress_complete c s d :
  session_audioBuffer s = Some d →
  100 <= currentProgress d s →
  updateProgress c s
  = Done ()
      (set_progress 100
         (set_isPlaying false (set_progress (currentProgress d s) s))).
Proof.
  intros Hb Hge. unfold updateProgress. mrun. rewrite Hb.
  fold (currentProgress d s).
  pose proof Hge as Hge'. apply Qlt_bool_false in Hge. rewrite Hge.
  apply Qle_bool_iff in Hge'. by rewrite Hge'.
Qed.

(** The [updateProgress] of a render in which [isPlaying] was false stores
    the progress and neither reschedules itself nor completes. *)
Lemma updateProgress_stale c s d :
  session_audioBuffer s = Some d →
  currentProgress d s < 100 → c_isPlaying c = false →
  updateProgress c s = Done () (set_progress (currentProgress d s) s).
Proof.
  intros Hb Hlt Hc. unfold updateProgress. mrun. rewrite Hb, Hc.
  fold (currentProgress d s).
  rewrite andb_false_r.
  apply Qlt_not_le in Hlt. rewrite <- Qle_bool_iff in Hlt.
  by destruct (Qle_bool 100 (currentProgress d s)).
Qed.

(** *** The events *)

Lemma toggle_pause_run s :
  isPlaying s = true →
  handle Toggle s = Done () (set_isPlaying false (stopped s)).
Proof.
  intros Hp. unfold handle, dispatch, mbind, M_bind, gets, togglePlay.
  cbn [render c_isPlaying]. rewrite Hp, pauseAudio_run.
  rewrite commit_to_paused by done.
  cbn. by rewrite cancelled_idem.
Qed.

Lemma toggle_idle_run s :
  isPlaying s = false → session_audioBuffer s = None →
  handle Toggle s = Done () s.
Proof.
  intros Hp Hb. unfold handle, dispatch, mbind, M_bind, gets, togglePlay.
  cbn [render c_isPlaying]. rewrite Hp, playAudio_no_buffer by done.
  by rewrite commit_same.
Qed.

Lemma toggle_play_run s d :
  isPlaying s = false → session_audioBuffer s = Some d →
  0 <= progress s / 100 * d →
  handle Toggle s = Done () (resumed d s).
Proof.
  intros Hp Hb Hoff. unfold handle, dispatch, mbind, M_bind, gets, togglePlay.
  cbn [render c_isPlaying]. rewrite Hp.
  rewrite (playAudio_run _ _ d) by done.
  by rewrite commit_to_playing.
Qed.

Lemma restartClick_run s : restartClick s = Done () (restarted s).
Proof. unfold restartClick, mbind, M_bind. rewrite pauseAudio_run. by mrun. Qed.

Lemma restart_run s : handle Restart s = Done () (restarted s).
Proof.
  unfold handle, dispatch, mbind, M_bind, gets. rewrite restartClick_run.
  destruct (isPlaying s) eqn:Hp.
  - rewrite commit_to_paused by done. cbn. by rewrite cancelled_idem.
  - by rewrite commit_same.
Qed.

Lemma handleVolumeChange_run newVol s :
  handleVolumeChange newVol s = Done () (volume_changed newVol s).
Proof.
  unfold handleVolumeChange, volume_changed. mrun.
  by destruct (gainNodeRef s).
Qed.

Lemma volume_run newVol s :
  handle (VolumeChange newVol) s = Done () (volume_changed newVol s).
Proof.
  unfold handle, dispatch, mbind, M_bind, gets.
  rewrite handleVolumeChange_run. by rewrite commit_same.
Qed.

Lemma unmount_run s : handle Unmount s = Done () (stopped s).
Proof.
  unfold handle, mbind, M_bind. rewrite stopAudio_run.
  rewrite playingEffectCleanup_run. cbn. by rewrite cancelled_idem.
Qed.

Lemma frame_idle_run s : raf_pending s = [] → handle Frame s = Done () s.
Proof. intros Hq. unfold handle, fireFrame. mrun. by rewrite Hq. Qed.

Lemma fireFrame_run s id c rest :
  raf_pending s = (id, c) :: rest →
  fireFrame s
  = match updateProgress c (popped s) with
    | Done _ s' => commit (render s) s'
    | Thrown f s' => Thrown f s'
    end.
Proof.
  intros Hq. unfold fireFrame, popped. unfold_monad. rewrite Hq. reflexivity.
Qed.

Lemma frame_continue_run s id c rest d :
  raf_pending s = (id, c) :: rest →
  session_audioBuffer s = Some d →
  isPlaying s = true → c_isPlaying c = true →
  currentProgress d s < 100 →
  handle Frame s
  = Done ()
      (set_animationFrameRef (raf_next s)
         (set_raf (S (raf_next s)) (rest ++ [(raf_next s, c)])
            (set_progress (currentProgress d s) s))).
Proof.
  intros Hq Hb Hp Hc Hlt. unfold handle. rewrite (fireFrame_run _ _ _ _ Hq).
  rewrite (updateProgress_continue _ _ d) by done.
  rewrite commit_same by done. unfold popped. rewrite Hq. reflexivity.
Qed.

Lemma frame_complete_run s id c rest d :
  raf_pending s = (id, c) :: rest →
  session_audioBuffer s = Some d →
  100 <= currentProgress d s →
  handle Frame s = Done () (completed d s).
Proof.
  intros Hq Hb Hge. unfold handle. rewrite (fireFrame_run _ _ _ _ Hq).
  rewrite (updateProgress_complete _ _ d) by done.
  unfold completed. destruct (isPlaying s) eqn:Hp.
  - by rewrite commit_to_paused.
  - by rewrite commit_same.
Qed.

(** ** Arithmetic of the progress computation *)

Section Percent.
Variable d : Q.
Hypothesis d_pos : 0 < d.

Lemma d_nonzero : ¬ d == 0.
Proof. intros H. rewrite H in d_pos. by apply Qlt_irrefl in d_pos. Qed.

(** [elapsed / d * 100] grows with [elapsed]. *)
Lemma percent_mono e1 e2 : e1 <= e2 → e1 / d * 100 <= e2 / d * 100.
Proof.
  intros H. apply Qmult_le_compat_r; [|done].
  unfold Qdiv. apply Qmult_le_compat_r; [done|].
  apply Qlt_le_weak, Qinv_lt_0_compat, d_pos.
Qed.

Lemma percent_full : d / d * 100 == 100.
Proof. field. apply d_nonzero. Qed.

(** At least 100 percent exactly when the whole duration has elapsed. *)
Lemma percent_ge_100 e : 100 <= e / d * 100 ↔ d <= e.
Proof.
  split; intros H.
  - destruct (Qlt_le_dec e d) as [Hlt|]; [|done]. exfalso.
    assert (e / d * 100 < d / d * 100) as Hlt';
      [|rewrite percent_full in Hlt'; by eapply Qlt_not_le].
    apply Qmult_lt_compat_r; [done|].
    unfold Qdiv. apply Qmult_lt_compat_r; [|done].
    apply Qinv_lt_0_compat, d_pos.
  - apply Qle_trans with (d / d * 100); [|by apply percent_mono].
    rewrite percent_full. apply Qle_refl.
Qed.

(** The offset of a resume, [p / 100 * d], lies in the buffer. *)
Lemma offset_nonneg p : 0 <= p → 0 <= p / 100 * d.
Proof.
  intros H. apply Qmult_le_0_compat; [|by apply Qlt_le_weak].
  unfold Qdiv. apply Qmult_le_0_compat; done.
Qed.

Lemma offset_le p : p <= 100 → p / 100 * d <= d.
Proof.
  intros H. assert (100 / 100 * d == d) as Heq by field.
  apply Qle_trans with (100 / 100 * d); [|rewrite Heq; apply Qle_refl].
  apply Qmult_le_compat_r; [|by apply Qlt_le_weak].
  unfold Qdiv. apply Qmult_le_compat_r; done.
Qed.

(** The anchor [now - offset] puts the position back at [p] percent. *)
Lemma percent_of_offset now p : (now - (now - p / 100 * d)) / d * 100 == p.
Proof. field. apply d_nonzero. Qed.
End Percent.

(** ** Source nodes that have fallen silent *)

Lemma dead_mono t1 t2 n : t1 <= t2 → dead t1 n → dead t2 n.
Proof. intros H12 Hd t' Ht'. apply Hd. by apply Qle_trans with t2. Qed.

Lemma dead_inactive t n : dead t n → is_active t n = false.
Proof. intros Hd. apply Hd, Qle_refl. Qed.

Lemma dead_stop_node t n : dead t (stop_node n).
Proof.
  intros t' _. unfold stop_node, is_active.
  destruct (n_started n) as [[t0 off]|] eqn:Hst; [|by rewrite Hst].
  destruct (n_stopped n) eqn:Hsp.
  - rewrite Hst, Hsp. by destruct (n_buffer n).
  - cbn. rewrite Hst. by destruct (n_buffer n).
Qed.

(** A node anchored at [start] has played its buffer out at [start + d]. *)
Lemma dead_ended t n d t0 off start :
  n_buffer n = Some d → n_started n = Some (t0, off) →
  0 <= off <= d → t0 - off == start → start + d <= t →
  dead t n.
Proof.
  intros Hb Hst [Hoff0 Hoffd] Hanchor Hend t' Ht'. unfold is_active.
  rewrite Hst, Hb.
  assert (Qlt_bool t' (t0 + (d - Qmin (Qmax off 0) d)) = false) as ->;
    [|by rewrite andb_false_r].
  apply Qlt_bool_false.
  rewrite (Q.max_l off 0), (Q.min_l off d) by done.
  apply Qle_trans with t; [|done].
  apply Qle_trans with (start + d); [|done].
  rewrite <- Hanchor. apply Qle_of_eq. ring.
Qed.

Lemma filter_none {A} (P : A → Prop) `{∀ x, Decision (P x)} (l : list A) :
  (∀ h x, l !! h = Some x → ¬ P x) → filter P l = [].
Proof.
  induction l as [|y l IH]; intros Hnone; [done|].
  rewrite filter_cons_False by (by apply (Hnone 0%nat)).
  apply IH. intros h x. apply (Hnone (S h)).
Qed.

(** If only the element at index [keep] can satisfy [P], at most one
    element does. *)
Lemma filter_at_most_one {A} (P : A → Prop) `{∀ x, Decision (P x)}
    (l : list A) (keep : option nat) :
  (∀ h x, l !! h = Some x → P x → keep = Some h) →
  (length (filter P l) ≤ 1)%nat.
Proof.
  revert keep. induction l as [|y l IH]; intros keep Hkeep; [cbn; lia|].
  rewrite filter_cons. case_decide as Hy.
  - rewrite filter_none; [cbn; lia|].
    intros h x Hx Px. apply (Hkeep 0%nat) in Hy; [|done].
    apply (Hkeep (S h)) in Px; [|done]. congruence.
  - apply (IH (pred <$> keep)). intros h x Hx Px.
    by rewrite (Hkeep (S h) x).
Qed.

(** ** Reachable states and their invariant *)

(** ** The invariant holds in every reachable state *)

(** Reads the fields of the states the events end in. *)
Ltac post :=
  cbn [session_audioBuffer isPlaying progress volume audioSourceRef
       startTimeRef pauseTimeRef animationFrameRef gainNodeRef
       ctx_currentTime ctx_state ctx_sources ctx_gains raf_next raf_pending
       c_isPlaying c_progress c_volume render
       set_isPlaying set_progress set_volume set_audioSourceRef
       set_startTimeRef set_animationFrameRef set_gainNodeRef
       set_ctx_currentTime set_ctx_state set_ctx_sources set_ctx_gains
       set_raf played resumed stopped restarted volume_changed popped mount]
    in *.

Section Reachable.
(** A decoded buffer holds at least one sample frame: its duration is
    positive. *)
Variable buf : option Q.
Hypothesis buf_positive : ∀ d, buf = Some d → 0 < d.

Local Abbreviation reachable := (reachable buf).
Local Abbreviation Inv := (Inv buf).
Local Abbreviation transition := (transition buf).

Lemma Inv_mount st t0 : 0 <= t0 → Inv (mount buf st t0).
Proof.
  intros Ht0. split; cbn; done.
Qed.

Lemma Inv_advance s t :
  Inv s → ctx_currentTime s <= t → Inv (set_ctx_currentTime t s).
Proof.
  intros [] Ht. split; fields; try done.
  - by apply Qle_trans with (ctx_currentTime s).
  - intros Hp. destruct (inv_playing0 Hp) as (c & d & ? & ? & ? & Hd & Hle).
    exists c, d. split_and!; try done.
    apply Qle_trans with ((ctx_currentTime s - startTimeRef s) / d * 100);
      [done|].
    apply percent_mono; [by apply buf_positive|].
    unfold Qminus. by apply Qplus_le_compat; [|apply Qle_refl].
  - intros h n Hn. destruct (inv_others0 h n Hn) as [Hd|]; [left|by right].
    by apply dead_mono with (ctx_currentTime s).
Qed.

(** After [stopAudio] every node is silent. *)
Lemma stopped_dead s h n :
  Inv s → ctx_sources (stopped s) !! h = Some n → dead (ctx_currentTime s) n.
Proof.
  intros [] Hn. cbn in Hn.
  destruct (audioSourceRef s) as [h0|] eqn:Href.
  - destruct (decide (h0 = h)) as [->|Hne].
    + rewrite list_lookup_alter_eq in Hn.
      destruct (ctx_sources s !! h) as [n0|]; [|done].
      injection Hn as <-. apply dead_stop_node.
    + rewrite list_lookup_alter_ne in Hn by done.
      destruct (inv_others0 h n Hn) as [|[_ ?]]; [done|congruence].
  - destruct (inv_others0 h n Hn) as [|[_ ?]]; [done|congruence].
Qed.

Lemma stopped_pending s : Inv s → raf_pending (stopped s) = [].
Proof.
  intros []. cbn. destruct (isPlaying s) eqn:Hp.
  - destruct (inv_playing0 eq_refl) as (c & d & -> & _ & ? & _).
    by apply cancelled_single.
  - rewrite inv_paused0 by done. apply cancelled_nil.
Qed.

Lemma Inv_paused s : Inv s → Inv (set_isPlaying false (stopped s)).
Proof.
  intros HI. pose proof (stopped_pending s HI) as Hq.
  pose proof (λ h n, stopped_dead s h n HI) as Hdead.
  destruct HI. split; post; try done.
  intros h n Hn. left. by apply (Hdead h).
Qed.

Lemma Inv_restarted s : Inv s → Inv (restarted s).
Proof.
  intros HI. pose proof (stopped_pending s HI) as Hq.
  pose proof (λ h n, stopped_dead s h n HI) as Hdead.
  destruct HI. split; post; try done.
  intros h n Hn. left. by apply (Hdead h).
Qed.

Lemma Inv_volume_changed newVol s : Inv s → Inv (volume_changed newVol s).
Proof. intros []. split; post; done. Qed.

Lemma Inv_resumed s d :
  Inv s → isPlaying s = false → buf = Some d → Inv (resumed d s).
Proof.
  intros [] Hp Hd. pose proof (buf_positive d Hd) as Hpos.
  destruct inv_progress0 as [Hp0 Hp100].
  split; post; try done.
  - intros _. exists (render (played (render s) d s)), d.
    split_and!; try done.
    + rewrite (inv_paused0 Hp). cbn [app].
      by rewrite cancelled_single.
    + apply Qle_of_eq. symmetry. by apply percent_of_offset.
  - intros h [= <-]. eexists _, d, _, _.
    rewrite lookup_snoc_length. split_and!; try done.
    + by apply offset_nonneg.
    + by apply offset_le.
    + by rewrite Q.max_r.
  - intros h n Hn. apply lookup_snoc_Some in Hn as [[_ Hn]|[<- _]].
    + left. destruct (inv_others0 h n Hn) as [|[? _]]; [done|congruence].
    + by right.
Qed.

Lemma Inv_frame_continue s c d :
  Inv s → raf_pending s = [(animationFrameRef s, c)] →
  c_isPlaying c = true → buf = Some d →
  progress s <= (ctx_currentTime s - startTimeRef s) / d * 100 →
  currentProgress d s < 100 →
  Inv (set_animationFrameRef (raf_next s)
         (set_raf (S (raf_next s)) [(raf_next s, c)]
            (set_progress (currentProgress d s) s))).
Proof.
  intros [] Hq Hc Hd Hle Hlt. destruct inv_progress0 as [Hp0 Hp100].
  split; post; try done.
  - split; [|by apply Qlt_le_weak].
    apply Q.min_glb; [|done]. by apply Qle_trans with (progress s).
  - intros Hp. by rewrite (inv_paused0 Hp) in Hq.
  - intros Hp. exists c, d. split_and!; try done. apply Q.le_min_l.
Qed.

Lemma Inv_completed s c d :
  Inv s → raf_pending s = [(animationFrameRef s, c)] →
  isPlaying s = true → buf = Some d →
  100 <= currentProgress d s →
  Inv (completed d s).
Proof.
  intros [] Hq Hp Hd Hge. unfold completed. rewrite Hp.
  assert (d <= ctx_currentTime s - startTimeRef s) as Hend.
  { apply percent_ge_100; [by apply buf_positive|].
    apply Qle_trans with (currentProgress d s); [done|]. apply Q.le_min_l. }
  split; post; try done.
  - intros _. rewrite Hq. cbn [tail]. apply cancelled_nil.
  - intros h n Hn. left.
    destruct (inv_others0 h n Hn) as [|[_ Href]]; [done|].
    destruct (inv_owned0 h Href)
      as (n' & d' & t0 & off & Hn' & Hd' & Hb & Hst & Hoff & Hanchor).
    assert (d' = d) as -> by congruence.
    assert (n' = n) as -> by congruence.
    apply (dead_ended _ _ d t0 off (startTimeRef s)); try done.
    apply Qle_trans with (startTimeRef s + (ctx_currentTime s - startTimeRef s)).
    + unfold Qminus. by apply Qplus_le_compat; [apply Qle_refl|].
    + apply Qle_of_eq. ring.
Qed.

(** Every event other than the unmount runs to completion, without a
    fault, along one of the transitions. *)
Lemma handle_transition s e :
  Inv s → e ≠ Unmount →
  ∃ s', handle e s = Done () s' ∧ transition s e s'.
Proof.
  intros HI He. pose proof HI as [].
  destruct e as [| |newVol| |]; [| | | |done].
  - destruct (isPlaying s) eqn:Hp.
    + eexists. split; [by apply toggle_pause_run|by constructor].
    + destruct buf as [d|] eqn:Hd.
      * exists (resumed d s). split; [|by constructor].
        apply toggle_play_run; [done|done|].
        apply offset_nonneg; [by apply buf_positive|]. apply inv_progress0.
      * exists s. split; [by apply toggle_idle_run|by constructor].
  - eexists. split; [apply restart_run|constructor].
  - eexists. split; [apply volume_run|constructor].
  - destruct (isPlaying s) eqn:Hp.
    + destruct (inv_playing0 eq_refl) as (c & d & Hq & Hc & _ & Hd & Hle).
      destruct (Qlt_le_dec (currentProgress d s) 100) as [Hlt|Hge].
      * eexists. split; [|by eapply tr_frame_continue].
        apply (frame_continue_run s (animationFrameRef s) c [] d); try done.
        congruence.
      * eexists. split; [|by eapply tr_frame_complete].
        eapply frame_complete_run; try done. congruence.
    + exists s. split; [|constructor; auto].
      apply frame_idle_run. auto.
Qed.

Lemma transition_Inv s e s' : Inv s → transition s e s' → Inv s'.
Proof.
  intros HI Htr. destruct Htr.
  - by apply Inv_paused.
  - done.
  - by apply Inv_resumed.
  - by apply Inv_restarted.
  - by apply Inv_volume_changed.
  - done.
  - by apply Inv_frame_continue.
  - by eapply Inv_completed.
Qed.

Lemma step_transition s t e :
  Inv s → e ≠ Unmount → ctx_currentTime s <= t →
  ∃ s', step t e s = Done () s'
        ∧ transition (set_ctx_currentTime t s) e s' ∧ Inv s'.
Proof.
  intros HI He Ht. pose proof (Inv_advance s t HI Ht) as HI'.
  destruct (handle_transition _ e HI' He) as (s' & Hrun & Htr).
  exists s'. split_and!; [done|done|]. by eapply transition_Inv.
Qed.

Theorem reachable_Inv s : reachable s → Inv s.
Proof.
  induction 1 as [st t0 Ht0|s t e s' _ IH He Ht Hstep].
  - by apply Inv_mount.
  - destruct (step_transition s t e IH He Ht) as (s'' & Hrun & _ & HI).
    rewrite Hrun in Hstep. by injection Hstep as <-.
Qed.

(** The two clicks on the play/pause button, on a reachable state. *)
Lemma step_pause s t :
  isPlaying s = true →
  step t Toggle s
  = Done () (set_isPlaying false (stopped (set_ctx_currentTime t s))).
Proof. intros Hp. unfold step. by rewrite toggle_pause_run. Qed.

Lemma step_play s t d :
  Inv s → isPlaying s = false → buf = Some d →
  step t Toggle s = Done () (resumed d (set_ctx_currentTime t s)).
Proof.
  intros [] Hp Hd. unfold step. apply toggle_play_run; post; try congruence.
  apply offset_nonneg; [by apply buf_positive|]. apply inv_progress0.
Qed.

(** ** The claims *)

(** C1, as the code has it.  For every pause at progress fraction p
    followed by a play(), the new output node is started at the offset
    the code computes from p and the duration, [(progress / 100) *
    duration], and the anchor is set to the context time of the play
    minus that offset; the play itself leaves the frozen fraction on
    show.  Nothing is said of how that offset and the position computed
    back from the anchor compare with p: see
    [C1_resume_misses_frozen_fraction]. *)
Theorem C1_resume_offset_and_anchor s t1 t2 d :
  reachable s → isPlaying s = true → buf = Some d →
  ctx_currentTime s <= t1 → t1 <= t2 →
  ∃ s1 s2 g,
    step t1 Toggle s = Done () s1 ∧ step t2 Toggle s1 = Done () s2
    ∧ isPlaying s1 = false ∧ progress s1 = progress s
    ∧ isPlaying s2 = true ∧ progress s2 = progress s1
    ∧ ctx_sources s2
      = ctx_sources s1
        ++ [started_source d g (Qmax 0 t2) (progress s1 / 100 * d)]
    ∧ Qmax 0 t2 == t2
    ∧ audioSourceRef s2 = Some (length (ctx_sources s1))
    ∧ startTimeRef s2 = t2 - progress s1 / 100 * d
    ∧ ctx_currentTime s2 = t2.
Proof.
  intros Hr Hp Hd Ht1 Ht2. apply reachable_Inv in Hr.
  pose proof (Inv_paused _ (Inv_advance s t1 Hr Ht1)) as HI1.
  set (s1 := set_isPlaying false (stopped (set_ctx_currentTime t1 s))) in *.
  exists s1, (resumed d (set_ctx_currentTime t2 s1)), (length (ctx_gains s1)).
  assert (0 <= t2) as Ht2'.
  { apply Qle_trans with t1; [|done].
    apply Qle_trans with (ctx_currentTime s); [|done]. apply Hr. }
  split_and!; try done.
  - by apply step_pause.
  - by apply step_play.
  - by apply Q.max_r.
Qed.

Lemma is_unmount e : e = Unmount ∨ e ≠ Unmount.
Proof. destruct e; auto. Qed.

Lemma fraction_mono p q : p <= q → p / 100 <= q / 100.
Proof. intros H. unfold Qdiv. by apply Qmult_le_compat_r. Qed.

(** What a step other than restart does to the progress of a state that
    satisfies the invariant, one clause of which is that the progress
    shown is not ahead of the position computed from the anchor. *)
Lemma Inv_step_progress s t e :
  Inv s → ctx_currentTime s <= t → e ≠ Restart → e ≠ Unmount →
  ∃ s', step t e s = Done () s' ∧ Inv s'
        ∧ (isPlaying s = false → progress s' = progress s)
        ∧ (isPlaying s = true → e ≠ Frame → progress s' = progress s)
        ∧ (isPlaying s = true → progress s <= progress s').
Proof.
  intros Hr Ht He Hu.
  destruct (step_transition s t e Hr Hu Ht) as (s' & Hrun & Htr & HI').
  exists s'. split; [done|]. split; [done|].
  pose proof (Inv_advance s t Hr Ht) as [_ _ [_ Hp100] _ _ _ _ _].
  destruct Htr; post; try done;
    try (split_and!; [done|done|intros _; apply Qle_refl]).
  - split_and!; [intros ?; congruence|done|intros _]. by apply Q.min_glb.
  - split_and!; [intros ?; congruence|done|intros _].
    unfold completed. by destruct (isPlaying _).
Qed.


Lemma silent_of_dead (l : list SourceNode) t t' :
  (∀ h n, l !! h = Some n → dead t n) → t <= t' →
  filter (λ n, is_active t' n = true) l = [].
Proof.
  intros Hdead Ht. apply filter_none. intros h n Hn.
  rewrite (Hdead h n Hn t' Ht). discriminate.
Qed.

Lemma Inv_at_most_one s t :
  Inv s → ctx_currentTime s <= t → (length (active_sources t s) ≤ 1)%nat.
Proof.
  intros [] Ht. apply (filter_at_most_one _ _ (audioSourceRef s)).
  intros h n Hn Hact. destruct (inv_others0 h n Hn) as [Hd|[_ Href]]; [|done].
  rewrite (Hd t Ht) in Hact. discriminate.
Qed.

Lemma Inv_paused_silent s t :
  Inv s → isPlaying s = false → ctx_currentTime s <= t →
  active_sources t s = [].
Proof.
  intros [] Hp Ht. apply silent_of_dead with (ctx_currentTime s); [|done].
  intros h n Hn. destruct (inv_others0 h n Hn) as [|[? _]]; [done|congruence].
Qed.

Lemma stopped_silent s t :
  Inv s → ctx_currentTime s <= t →
  filter (λ n, is_active t n = true) (ctx_sources (stopped s)) = [].
Proof.
  intros HI Ht. apply silent_of_dead with (ctx_currentTime s); [|done].
  intros h n. by apply stopped_dead.
Qed.

Lemma stopped_length s :
  length (ctx_sources (stopped s)) = length (ctx_sources s).
Proof. cbn. destruct (audioSourceRef s); [apply length_alter|done]. Qed.


(** Without a buffer the player stays as it was mounted. *)
Lemma idle_reachable s :
  buf = None → reachable s →
  isPlaying s = false ∧ ctx_sources s = [] ∧ audioSourceRef s = None
  ∧ progress s = 0 ∧ raf_pending s = [].
Proof.
  intros Hb Hr. induction Hr as [st t0 Ht0|s t e s' Hr IH He Ht Hstep]; [done|].
  destruct IH as (Hp & Hsrc & Href & Hprog & Hq).
  apply reachable_Inv in Hr.
  destruct (step_transition s t e Hr He Ht) as (s'' & Hrun & Htr & _).
  rewrite Hrun in Hstep. injection Hstep as ->.
  destruct Htr; post; try congruence; try done.
  - rewrite Href, Hsrc, Hq. by rewrite cancelled_nil.
Qed.

(** A source node started at the very end of its buffer never sounds. *)
Lemma started_at_end_silent d g t0 offset t :
  0 < d → offset == d → is_active t (started_source d g t0 offset) = false.
Proof.
  intros Hpos Hoff. unfold is_active, started_source. cbn.
  destruct (Qle_bool t0 t) eqn:Hle; [|done]. cbn.
  apply Qle_bool_iff in Hle. apply Qlt_bool_false.
  assert (Qmin (Qmax offset 0) d == d) as ->.
  { rewrite Q.max_l by lra. apply Q.min_r. lra. }
  lra.
Qed.

(** C10, as the code has it.  A play() after natural completion
    (progress fraction 1) computes an offset equal to the duration of the
    buffer: the new source node starts at the very end of the buffer and
    never sounds, playback does not start over, and the play itself
    leaves the progress at 100 percent.  A tick after it stores the
    position computed from the new anchor, and a tick on which the time
    elapsed since the anchor has reached the duration puts the progress
    back to 100 percent with isPlaying false.  Nothing is said of whether
    the next tick is such a tick: see [C10_next_tick_keeps_playing]. *)
Theorem C10_play_after_completion s t t' d :
  reachable s → isPlaying s = false → progress s == 100 →
  buf = Some d → ctx_currentTime s <= t → t <= t' →
  ∃ s1 s2 g offset,
    step t Toggle s = Done () s1
    ∧ offset == d
    ∧ ctx_sources s1
      = ctx_sources s ++ [started_source d g (Qmax 0 t) offset]
    ∧ (∀ t'', is_active t'' (started_source d g (Qmax 0 t) offset) = false)
    ∧ isPlaying s1 = true ∧ progress s1 = progress s
    ∧ startTimeRef s1 = t - offset
    ∧ step t' Frame s1 = Done () s2
    ∧ progress s2 == Qmin ((t' - startTimeRef s1) / d * 100) 100
    ∧ (d <= t' - startTimeRef s1 →
       progress s2 = 100 ∧ isPlaying s2 = false ∧ raf_pending s2 = []).
Proof.
  intros Hr Hp Hfull Hd Ht Ht'. apply reachable_Inv in Hr.
  pose proof (buf_positive d Hd) as Hpos.
  pose proof (Inv_advance s t Hr Ht) as HI0.
  pose proof (Inv_resumed _ d HI0 Hp Hd) as HI1.
  set (s1 := resumed d (set_ctx_currentTime t s)) in *.
  assert (progress s / 100 * d == d) as Hoff.
  { rewrite Hfull. field. }
  assert (ctx_currentTime s1 <= t') as Ht1 by done.
  pose proof (Inv_advance s1 t' HI1 Ht1) as HI1'.
  destruct (inv_playing _ _ HI1' eq_refl) as (c & d' & Hq & Hc & _ & Hd' & _).
  assert (d' = d) as -> by congruence.
  assert (100 <= currentProgress d (set_ctx_currentTime t' s1)) as Hge.
  { unfold currentProgress. apply Q.min_glb; [|apply Qle_refl].
    apply percent_ge_100; [done|]. subst s1. post. lra. }
  exists s1, (completed d (set_ctx_currentTime t' s1)),
    (length (ctx_gains s)), (progress s / 100 * d).
  split_and!; try done.
  - by apply step_play.
  - intros t''. by apply started_at_end_silent.
  - unfold step. eapply frame_complete_run; [exact Hq| |done].
    rewrite (inv_buffer _ _ HI1'). done.
  - assert (progress (completed d (set_ctx_currentTime t' s1)) = 100) as ->.
    { unfold completed. by destruct (isPlaying _). }
    symmetry. apply Q.min_r.
    apply Qle_trans with (currentProgress d (set_ctx_currentTime t' s1));
      [done|apply Q.le_min_l].
  - intros _.
    assert (isPlaying (completed d (set_ctx_currentTime t' s1)) = false)
      as Hp2 by (unfold completed; by destruct (isPlaying _)).
    split_and!; [unfold completed; by destruct (isPlaying _)|done|].
    by apply (inv_paused _ _ (Inv_completed _ c d HI1' Hq eq_refl Hd Hge)).
Qed.

Lemma run_reachable tr s :
  reachable s → admissible tr s = true → reachable (final (run tr s)).
Proof.
  revert s. induction tr as [|[t e] tr IH]; intros s Hr Hadm; [done|].
  cbn in Hadm. apply andb_true_iff in Hadm as [Hadm Hrest].
  apply andb_true_iff in Hadm as [Ht He]. apply Qle_bool_iff in Ht.
  cbn [run]. destruct (step t e s) as [[] s'|] eqn:Hstep; [|done].
  apply IH; [|done]. apply (reach_step buf s t e s'); try done.
  intros ->. done.
Qed.

End Reachable.

(** C4.  A frame on which the elapsed time has reached the duration of the
    buffer sets the progress to exactly 100 percent and isPlaying to
    false, requests no further frame, and leaves the source nodes and the
    handle in [audioSourceRef] as they are: the node is not stopped. *)
Theorem C4_natural_completion s id c rest d :
  raf_pending s = (id, c) :: rest →
  session_audioBuffer s = Some d → 0 < d →
  d <= ctx_currentTime s - startTimeRef s →
  ∃ s', handle Frame s = Done () s'
        ∧ progress s' = 100 ∧ progressFraction s' == 1
        ∧ isPlaying s' = false
        ∧ raf_next s' = raf_next s
        ∧ (∀ f, f ∈ raf_pending s' → f ∈ rest)
        ∧ ctx_sources s' = ctx_sources s
        ∧ audioSourceRef s' = audioSourceRef s.
Proof.
  intros Hq Hb Hpos Hend. exists (completed d s).
  split.
  { eapply frame_complete_run; [exact Hq|done|].
    apply Q.min_glb; [|apply Qle_refl]. by apply percent_ge_100. }
  unfold completed, progressFraction, popped.
  destruct (isPlaying s); post; rewrite Hq; cbn [tail];
    split_and!; try done.
  intros f. unfold cancelled. case_decide; [|done].
  rewrite list_elem_of_filter. by intros [_ ?].
Qed.

(** C5.  From every state, playing or paused, at any progress, restart
    sets the progress to exactly 0 and leaves isPlaying false; it creates
    no source node and requests no frame, so it does not start playback. *)
Theorem C5_restart_resets_progress s :
  ∃ s', handle Restart s = Done () s'
        ∧ progress s' = 0 ∧ progressFraction s' == 0
        ∧ isPlaying s' = false
        ∧ audioSourceRef s' = None
        ∧ length (ctx_sources s') = length (ctx_sources s)
        ∧ raf_next s' = raf_next s
        ∧ startTimeRef s' = ctx_currentTime s.
Proof.
  exists (restarted s). split; [apply restart_run|].
  unfold progressFraction. post. split_and!; try done.
  destruct (audioSourceRef s); [apply length_alter|done].
Qed.

(** C7.  For a level x in [0, 1] and any state, the volume change leaves
    isPlaying, the progress, the anchor, the source nodes, their handle and
    the pending frames as they are; it stores x and writes x to the gain of
    the gain node the ref holds, touching no other gain node. *)
Theorem C7_volume_change_frame x s :
  0 <= x <= 1 →
  ∃ s', handle (VolumeChange x) s = Done () s'
        ∧ isPlaying s' = isPlaying s ∧ progress s' = progress s
        ∧ startTimeRef s' = startTimeRef s
        ∧ ctx_sources s' = ctx_sources s
        ∧ audioSourceRef s' = audioSourceRef s
        ∧ raf_pending s' = raf_pending s ∧ raf_next s' = raf_next s
        ∧ gainNodeRef s' = gainNodeRef s
        ∧ volume s' = x ∧ 0 <= volume s' <= 1
        ∧ length (ctx_gains s') = length (ctx_gains s)
        ∧ ∀ h, ctx_gains s' !! h
               = if bool_decide (gainNodeRef s = Some h)
                 then with_value x <$> ctx_gains s !! h
                 else ctx_gains s !! h.
Proof.
  intros [Hx0 Hx1]. exists (volume_changed x s). split; [apply volume_run|].
  post. split_and!; try done.
  - destruct (gainNodeRef s); [apply length_alter|done].
  - intros h. destruct (gainNodeRef s) as [g|] eqn:Hg; [|done].
    case_bool_decide as Hh.
    + injection Hh as ->. apply list_lookup_alter_eq.
    + apply list_lookup_alter_ne. congruence.
Qed.

(** C9.  [pauseAudio] never faults, whatever the handle in
    [audioSourceRef] points to; a second call right after the first changes
    nothing at all; and a call made while paused with no node sounding
    changes nothing observable, and nothing whatsoever when the handle is
    empty and no frame is pending (as in the idle state). *)
Theorem C9_pause_is_idempotent s :
  ∃ s1, pauseAudio s = Done () s1
        ∧ pauseAudio s1 = Done () s1
        ∧ (isPlaying s = false →
           active_sources (ctx_currentTime s) s = [] →
           observable s1 = observable s)
        ∧ (isPlaying s = false → audioSourceRef s = None →
           raf_pending s = [] → s1 = s).
Proof.
  exists (set_isPlaying false (stopped s)). split_and!.
  - apply pauseAudio_run.
  - rewrite pauseAudio_run. f_equal. unfold stopped at 1. post.
    rewrite cancelled_idem. reflexivity.
  - intros Hp Hsilent. unfold observable, active_sources in *. post.
    rewrite Hp, Hsilent. do 3 f_equal.
    destruct (audioSourceRef s) as [h|]; [|done].
    apply filter_none. intros i n Hn.
    destruct (decide (h = i)) as [->|Hne].
    + rewrite list_lookup_alter_eq in Hn.
      destruct (ctx_sources s !! i) as [n0|]; [|done]. injection Hn as <-.
      rewrite (dead_inactive _ _ (dead_stop_node _ n0)). discriminate.
    + rewrite list_lookup_alter_ne in Hn by done.
      intros Hact. eapply (filter_nil_not_elem_of _ _ n Hsilent); [done|].
      by eapply list_elem_of_lookup_2.
  - intros Hp Href Hq. destruct s. fields. subst.
    unfold set_isPlaying, stopped, cancelled. fields.
    by case_decide.
Qed.

(** The control keeps what it is asked for within its bounds, and moves
    a value within the bounds by half a step at most. *)
Lemma sanitize_steps x :
  0 <= x <= 1 →
  ∃ k, (0 <= k <= 100)%Z ∧ sanitize (Some x) = 0 + inject_Z k * (1 # 100)
       ∧ inject_Z k <= x * 100 + (1 # 2) < inject_Z k + 1.
Proof.
  intros [Hx0 Hx1]. unfold sanitize, range_min, range_max, range_step.
  rewrite (proj2 (Qlt_bool_false x 0) Hx0), (proj2 (Qlt_bool_false 1 x) Hx1).
  set (y := (x - 0) / (1 # 100) + (1 # 2)).
  assert (y == x * 100 + (1 # 2)) as Hy by (unfold y; field).
  exists (Qfloor y). split_and!; [| |done| |].
  - change 0%Z with (Qfloor 0). apply Qfloor_resp_le. lra.
  - change 100%Z with (Qfloor (100 + (1 # 2))). apply Qfloor_resp_le. lra.
  - rewrite <- Hy. apply Qfloor_le.
  - pose proof (Qlt_floor y) as Hlt. rewrite inject_Z_plus in Hlt.
    rewrite <- Hy. exact Hlt.
Qed.

Lemma sanitize_in_range value : 0 <= sanitize value <= 1.
Proof.
  destruct value as [x|]; [|split; by vm_compute].
  destruct (Qlt_le_dec x 0) as [Hlo|Hlo].
  { unfold sanitize. rewrite (proj2 (Qlt_bool_true x range_min) Hlo).
    split; by vm_compute. }
  destruct (Qlt_le_dec 1 x) as [Hhi|Hhi].
  { unfold sanitize. rewrite (proj2 (Qlt_bool_false x range_min) Hlo).
    rewrite (proj2 (Qlt_bool_true range_max x) Hhi). split; by vm_compute. }
  destruct (sanitize_steps x (conj Hlo Hhi)) as (k & [Hk0 Hk100] & -> & _).
  rewrite Zle_Qle in Hk0, Hk100.
  change (inject_Z 0) with 0 in Hk0. change (inject_Z 100) with 100 in Hk100.
  split; lra.
Qed.



(** C8.  Without a decoded buffer [playAudio] returns at once: the state
    is unchanged and nothing is thrown; so is the click on play.  A player
    mounted without a buffer therefore stays idle: it never plays, owns no
    source node, and its progress stays 0. *)
Theorem C8_play_without_buffer_is_noop s c :
  session_audioBuffer s = None →
  playAudio c s = Done () s
  ∧ (isPlaying s = false → handle Toggle s = Done () s)
  ∧ (reachable None s →
     isPlaying s = false ∧ ctx_sources s = [] ∧ audioSourceRef s = None
     ∧ progress s = 0 ∧ handle Toggle s = Done () s).
Proof.
  intros Hb. split_and!.
  - by apply playAudio_no_buffer.
  - intros Hp. by apply toggle_idle_run.
  - intros Hr. apply idle_reachable in Hr as (Hp & ? & ? & ? & _); try done.
    split_and!; try done. by apply toggle_idle_run.
Qed.

Example scenario_half_way :
  progressFraction half_played == 1 # 2 ∧ isPlaying half_played = true.
Proof. by vm_compute. Qed.

Example scenario_paused :
  let s := final (run [(0, Toggle); (5, Frame); (5, Toggle); (8, Frame)]
                    session10) in
  progressFraction s == 1 # 2 ∧ isPlaying s = false.
Proof. by vm_compute. Qed.

Example scenario_resumed :
  let s := final (run [(0, Toggle); (5, Frame); (5, Toggle); (8, Toggle);
                       (11, Frame)] session10) in
  progressFraction s == 8 # 10 ∧ isPlaying s = true.
Proof. by vm_compute. Qed.

Example scenario_complete :
  let s := final (run [(0, Toggle); (5, Frame); (5, Toggle); (8, Toggle);
                       (11, Frame); (13, Frame)] session10) in
  progressFraction s == 1 ∧ isPlaying s = false.
Proof. by vm_compute. Qed.

(** A second [stop] on the same node throws; [pauseAudio] on a handle to
    a node that was stopped before does not. *)
Example double_stop_throws :
  let s := final (run [(0, Toggle)] session10) in
  match source_stop 0 (final (source_stop 0 s)) with
  | Thrown InvalidStateError _ => True
  | _ => False
  end
  ∧ match pauseAudio (set_audioSourceRef (Some 0%nat) (final (pauseAudio s)))
    with
    | Done _ _ => True
    | Thrown _ _ => False
    end.
Proof. by vm_compute. Qed.

(** ** The claims that need exact arithmetic

    [Double] runs the arithmetic of the player as the platform does.  On
    the scenario of the specification every number is exact, and it
    agrees with the rational model. *)

Section DoublePrecision.
Import PrimFloat.
Local Open Scope float_scope.

Lemma Double_scenario :
  Double.run
    [(0, Double.Toggle); (5, Double.Frame); (5, Double.Toggle);
     (8, Double.Toggle); (11, Double.Frame); (13, Double.Frame)]
    (Double.mount 10)
  = {| Double.duration := 10; Double.isPlaying := false;
       Double.progress := 100; Double.startTimeRef := 3;
       Double.starts := [(0, 0); (8, 5)];
       Double.frameRequested := false |}
  ∧ Double.progress
      (Double.run
         [(0, Double.Toggle); (5, Double.Frame); (5, Double.Toggle);
          (8, Double.Toggle); (11, Double.Frame)]
         (Double.mount 10))
    = 80.
Proof. by vm_compute. Qed.

(** C1 fails as stated.  A buffer of 35 seconds is paused after 33
    seconds, at 94.28571428571428 percent, and play is clicked at context
    time 34.  The new node is started at the offset the code computes,
    and the anchor is 34 minus that offset; but the offset is
    32.99999999999999 seconds, a smaller fraction of the buffer than the
    frozen one, and the position computed from the anchor at the moment
    of the play is 94.28571428571426 percent, below the frozen one. *)
Lemma C1_resume_misses_frozen_fraction :
  let p := Double.progress Double.paused_at_33 in
  Double.isPlaying Double.paused_at_33 = false
  ∧ Double.isPlaying Double.resumed_at_34 = true
  ∧ Double.progress Double.resumed_at_34 = p
  ∧ ∃ offset,
      last (Double.starts Double.resumed_at_34) = Some (34, offset)
      ∧ offset = (p / 100) * 35
      ∧ Double.startTimeRef Double.resumed_at_34 = 34 - offset
      ∧ (offset / 35 <? p / 100) = true
      ∧ (Double.positionAt 34 Double.resumed_at_34 <? p) = true.
Proof. split_and!; [done..|]. eexists. by vm_compute. Qed.


(** C10 fails as stated.  A buffer of 1955616 samples at 24000 Hz
    (81.484 seconds) has been played to its end: progress 100 percent,
    not playing.  Play is clicked at context time 210: the node is
    started at an offset equal to the duration.  The anchor, 210 minus
    the duration, is rounded, and on a tick at the same context time the
    elapsed time comes out below the duration: the tick stores
    99.99999999999997 percent, leaves isPlaying true and requests another
    frame. *)
Lemma C10_next_tick_keeps_playing :
  let s := Double.played_to_end in
  let s1 := Double.played_again in
  let s2 := Double.step 210 Double.Frame s1 in
  Double.progress s = 100 ∧ Double.isPlaying s = false
  ∧ last (Double.starts s1) = Some (210, Double.duration s)
  ∧ Double.isPlaying s1 = true ∧ Double.progress s1 = 100
  ∧ (Double.progress s2 <? 100) = true
  ∧ Double.isPlaying s2 = true ∧ Double.frameRequested s2 = true.
Proof. by vm_compute. Qed.

End DoublePrecision.

(** ** The claims at concrete states *)

Lemma ten_positive : ∀ d : Q, Some 10 = Some d → 0 < d.
Proof. by intros d [= <-]. Qed.

Lemma none_positive : ∀ d : Q, @None Q = Some d → 0 < d.
Proof. done. Qed.

Lemma reachable_session10 : reachable (Some 10) session10.
Proof. by apply reach_mount. Qed.

Lemma reachable_half_played : reachable (Some 10) half_played.
Proof. apply run_reachable; [apply reachable_session10|by vm_compute]. Qed.

Lemma reachable_played_out : reachable (Some 10) played_out.
Proof. apply run_reachable; [apply reachable_session10|by vm_compute]. Qed.

Lemma C1_witness :
  reachable (Some 10) half_played ∧ isPlaying half_played = true
  ∧ ctx_currentTime half_played <= 5 ∧ 5 <= 8
  ∧ ∃ s1 s2 g,
      step 5 Toggle half_played = Done () s1
      ∧ step 8 Toggle s1 = Done () s2
      ∧ isPlaying s1 = false ∧ progress s1 = progress half_played
      ∧ isPlaying s2 = true ∧ progress s2 = progress s1
      ∧ ctx_sources s2
        = ctx_sources s1
          ++ [started_source 10 g (Qmax 0 8) (progress s1 / 100 * 10)]
      ∧ Qmax 0 8 == 8
      ∧ audioSourceRef s2 = Some (length (ctx_sources s1))
      ∧ startTimeRef s2 = 8 - progress s1 / 100 * 10
      ∧ ctx_currentTime s2 = 8.
Proof.
  assert (isPlaying half_played = true) as Hp by (by vm_compute).
  assert (ctx_currentTime half_played <= 5) as Ht1 by (by vm_compute).
  assert (5 <= 8) as Ht2 by (by vm_compute).
  split_and!; [apply reachable_half_played|done..|].
  apply (C1_resume_offset_and_anchor (Some 10) ten_positive half_played 5 8 10
           reachable_half_played Hp eq_refl Ht1 Ht2).
Defined.



Lemma C4_witness :
  let s := set_ctx_currentTime 10 (final (run [(0, Toggle)] session10)) in
  let c := {| c_isPlaying := true; c_progress := 0; c_volume := 8 # 10 |} in
  raf_pending s = [(2%nat, c)] ∧ session_audioBuffer s = Some 10 ∧ 0 < 10
  ∧ 10 <= ctx_currentTime s - startTimeRef s
  ∧ ∃ s', handle Frame s = Done () s'
          ∧ progress s' = 100 ∧ progressFraction s' == 1
          ∧ isPlaying s' = false
          ∧ raf_next s' = raf_next s
          ∧ (∀ f, f ∈ raf_pending s' → f ∈ [])
          ∧ ctx_sources s' = ctx_sources s
          ∧ audioSourceRef s' = audioSourceRef s.
Proof.
  intros s c.
  assert (raf_pending s = [(2%nat, c)]) as Hq by (by vm_compute).
  assert (session_audioBuffer s = Some 10) as Hb by (by vm_compute).
  assert (0 < 10) as Hpos by (by vm_compute).
  assert (10 <= ctx_currentTime s - startTimeRef s) as Hend by (by vm_compute).
  split_and!; [done..|].
  apply (C4_natural_completion s 2%nat c [] 10 Hq Hb Hpos Hend).
Defined.

Lemma C7_witness :
  0 <= 1 # 2 <= 1
  ∧ ∃ s', handle (VolumeChange (1 # 2)) half_played = Done () s'
          ∧ isPlaying s' = isPlaying half_played
          ∧ progress s' = progress half_played
          ∧ volume s' = 1 # 2.
Proof.
  assert (0 <= 1 # 2 <= 1) as Hx by (by vm_compute).
  split; [done|].
  destruct (C7_volume_change_frame (1 # 2) half_played Hx)
    as (s' & Hrun & Hp & Hprog & _ & _ & _ & _ & _ & _ & Hv & _).
  exists s'. by split_and!.
Defined.

Lemma C8_witness :
  let s := mount None suspended 0 in
  session_audioBuffer s = None
  ∧ playAudio (render s) s = Done () s
  ∧ handle Toggle s = Done () s.
Proof.
  intros s. assert (session_audioBuffer s = None) as Hb by reflexivity.
  split; [done|].
  destruct (C8_play_without_buffer_is_noop s (render s) Hb) as (Hplay & Htoggle & _).
  split; [done|]. by apply Htoggle.
Defined.

Lemma C10_witness :
  reachable (Some 10) played_out ∧ isPlaying played_out = false
  ∧ progress played_out == 100
  ∧ ctx_currentTime played_out <= 12 ∧ 12 <= 25 # 2
  ∧ ∃ s1 s2 g offset,
      step 12 Toggle played_out = Done () s1
      ∧ offset == 10
      ∧ ctx_sources s1
        = ctx_sources played_out ++ [started_source 10 g (Qmax 0 12) offset]
      ∧ (∀ t'', is_active t'' (started_source 10 g (Qmax 0 12) offset) = false)
      ∧ isPlaying s1 = true ∧ progress s1 = progress played_out
      ∧ startTimeRef s1 = 12 - offset
      ∧ step (25 # 2) Frame s1 = Done () s2
      ∧ progress s2 == Qmin (((25 # 2) - startTimeRef s1) / 10 * 100) 100
      ∧ (10 <= (25 # 2) - startTimeRef s1 →
         progress s2 = 100 ∧ isPlaying s2 = false ∧ raf_pending s2 = []).
Proof.
  assert (isPlaying played_out = false) as Hp by (by vm_compute).
  assert (progress played_out == 100) as Hfull by (by vm_compute).
  assert (ctx_currentTime played_out <= 12) as Ht by (by vm_compute).
  assert (12 <= 25 # 2) as Ht' by (by vm_compute).
  split_and!; [apply reachable_played_out|done..|].
  apply (C10_play_after_completion (Some 10) ten_positive played_out 12
           (25 # 2) 10 reachable_played_out Hp Hfull eq_refl Ht Ht').
Defined.

(** * More about the player *)

Section PlayerGraph.
Variable buf : option Q.
Hypothesis buf_positive : ∀ d, buf = Some d → 0 < d.

Local Abbreviation reachable := (reachable buf).
Local Abbreviation Inv := (Inv buf).
Local Abbreviation transition := (transition buf).
Local Abbreviation Wired := (Wired buf).

Lemma stop_node_fields n :
  n_buffer (stop_node n) = n_buffer n ∧ n_output (stop_node n) = n_output n
  ∧ n_started (stop_node n) = n_started n.
Proof.
  unfold stop_node. destruct (n_started n) eqn:Hst; [|done].
  by destruct (n_stopped n).
Qed.

Lemma stopped_sources_wired s h n :
  Wired s → ctx_sources (stopped s) !! h = Some n →
  n_buffer n = buf ∧ n_output n = Some h ∧ is_Some (n_started n).
Proof.
  intros [] Hn. post.
  destruct (audioSourceRef s) as [h0|]; [|by apply wired_sources0].
  destruct (decide (h0 = h)) as [->|Hne].
  - rewrite list_lookup_alter_eq in Hn.
    destruct (ctx_sources s !! h) as [n0|] eqn:Hn0; [|done].
    injection Hn as <-. destruct (stop_node_fields n0) as (-> & -> & ->).
    by apply wired_sources0.
  - rewrite list_lookup_alter_ne in Hn by done. by apply wired_sources0.
Qed.

Lemma stopped_sources_nil s :
  ctx_sources (stopped s) = [] ↔ ctx_sources s = [].
Proof.
  rewrite <- !length_zero_iff_nil. by rewrite stopped_length.
Qed.

Lemma Wired_paused s : Wired s → Wired (set_isPlaying false (stopped s)).
Proof.
  intros HW. pose proof (λ h n, stopped_sources_wired s h n HW) as Hsrc.
  pose proof (stopped_length s) as Hlen.
  pose proof (stopped_sources_nil s) as Hnil.
  destruct HW. split; try done.
  - cbn [ctx_sources ctx_gains set_isPlaying] in *. by rewrite Hlen.
  - intros Hne. apply wired_running0. intros H. by apply Hne, Hnil.
Qed.

Lemma Wired_restarted s : Wired s → Wired (restarted s).
Proof.
  intros HW. pose proof (λ h n, stopped_sources_wired s h n HW) as Hsrc.
  pose proof (stopped_length s) as Hlen.
  pose proof (stopped_sources_nil s) as Hnil.
  destruct HW. split; try done.
  - unfold restarted.
    cbn [ctx_sources ctx_gains set_isPlaying set_progress set_startTimeRef]
      in *.
    by rewrite Hlen.
  - intros Hne. apply wired_running0. intros H. by apply Hne, Hnil.
Qed.

Lemma Wired_volume_changed newVol s : Wired s → Wired (volume_changed newVol s).
Proof.
  intros []. split; post; try done.
  - intros g gn Hg. destruct (gainNodeRef s) as [g0|]; [|by eapply wired_gains0].
    destruct (decide (g0 = g)) as [->|Hne].
    + rewrite list_lookup_alter_eq in Hg.
      destruct (ctx_gains s !! g) as [gn0|] eqn:Hg0; [|done].
      injection Hg as <-. exact (wired_gains0 g gn0 Hg0).
    + rewrite list_lookup_alter_ne in Hg by done. by eapply wired_gains0.
  - destruct (gainNodeRef s); [by rewrite length_alter|done].
  - intros g Hg. rewrite Hg. destruct (wired_volume0 g Hg) as (gn & Hgn & _).
    exists (with_value newVol gn). split; [|done].
    by rewrite list_lookup_alter_eq, Hgn.
Qed.

Lemma Wired_resumed s d :
  Wired s → isPlaying s = false → buf = Some d → Wired (resumed d s).
Proof.
  intros [] Hp Hd. split; post; try done.
  - intros h n Hn. apply lookup_snoc_Some in Hn as [[_ Hn]|[-> <-]].
    + by apply wired_sources0.
    + cbn. by rewrite wired_count0, Hd.
  - intros g gn Hg. apply lookup_snoc_Some in Hg as [[_ Hg]|[_ <-]].
    + by eapply wired_gains0.
    + done.
  - rewrite !length_app. cbn. lia.
  - intros g [= <-]. eexists. by rewrite lookup_snoc_length.
  - intros h [= <-]. by rewrite wired_count0.
Qed.

Lemma transition_Wired s e s' : Wired s → transition s e s' → Wired s'.
Proof.
  intros HW Htr. destruct Htr.
  - by apply Wired_paused.
  - done.
  - by apply Wired_resumed.
  - by apply Wired_restarted.
  - by apply Wired_volume_changed.
  - done.
  - destruct HW. by split.
  - unfold completed. destruct HW. destruct (isPlaying s); by split.
Qed.

Lemma reachable_Wired s : reachable s → Wired s.
Proof.
  induction 1 as [st t0 Ht0|s t e s' Hr IH He Ht Hstep].
  - split; cbn; try done.
  - apply reachable_Inv in Hr; [|done].
    destruct (step_transition buf buf_positive s t e Hr He Ht)
      as (s'' & Hrun & Htr & _).
    rewrite Hrun in Hstep. injection Hstep as <-.
    apply (transition_Wired (set_ctx_currentTime t s) e); [|done].
    destruct IH. by split.
Qed.

(** X1.  An event on a reachable state never ends in a fault: [start] is
    never given a negative offset or a node that was started before, and
    what [stop] throws is caught. *)
Theorem player_events_never_fault s t e :
  reachable s → ctx_currentTime s <= t → ∃ s', step t e s = Done () s'.
Proof.
  intros Hr Ht. apply reachable_Inv in Hr; [|done].
  destruct (is_unmount e) as [->|Hu].
  - eexists. apply unmount_run.
  - destruct (step_transition buf buf_positive s t e Hr Hu Ht)
      as (s' & Hrun & _).
    by exists s'.
Qed.

(** X2.  The progress a reachable state shows lies between 0 and 100
    percent. *)
Theorem progress_within_bounds s :
  reachable s → 0 <= progress s <= 100 ∧ 0 <= progressFraction s <= 1.
Proof.
  intros Hr. apply reachable_Inv in Hr as [_ _ [H0 H100] _ _ _ _ _]; [|done].
  unfold progressFraction. split; [done|]. split.
  - apply Qle_shift_div_l; [done|]. lra.
  - apply Qle_shift_div_r; [done|]. lra.
Qed.

(** X3.  While playing, the anchor is the context time at which the
    source node in the handle was started minus the offset it was started
    at, and the progress a frame stores is the time elapsed since that
    anchor as a percentage of the duration, capped at 100. *)
Theorem progress_tracks_source_position s t h n t0 off d :
  reachable s → isPlaying s = true → ctx_currentTime s <= t →
  audioSourceRef s = Some h → ctx_sources s !! h = Some n →
  n_started n = Some (t0, off) → buf = Some d →
  startTimeRef s == t0 - off
  ∧ ∃ s', step t Frame s = Done () s'
          ∧ progress s' == Qmin ((t - (t0 - off)) / d * 100) 100.
Proof.
  intros Hr Hp Ht Href Hn Hst Hd. apply reachable_Inv in Hr; [|done].
  assert (Frame ≠ Unmount) as Hu by done.
  destruct (step_transition buf buf_positive s t Frame Hr Hu Ht)
    as (s' & Hrun & Htr & _).
  destruct (inv_owned _ _ Hr h Href)
    as (n' & d' & t0' & off' & Hn' & Hd' & _ & Hst' & _ & Hanchor).
  assert (n' = n) as -> by congruence.
  assert (t0' = t0 ∧ off' = off) as [-> ->] by (split; congruence).
  split; [by symmetry|]. exists s'. split; [done|].
  assert (t - startTimeRef s == t - (t0 - off)) as Heq by lra.
  inversion Htr as [| | | | |Hp' _|c d1 _ _ _ Hd1 _ _|c d1 _ _ Hd1 Hge];
    subst; post.
  - congruence.
  - assert (d1 = d) as -> by congruence.
    unfold currentProgress. post. by rewrite Heq.
  - assert (d1 = d) as -> by congruence.
    unfold completed. post. rewrite Hp. post.
    unfold currentProgress in Hge. post. rewrite Heq in Hge.
    symmetry. apply Q.min_r.
    apply Qle_trans with (Qmin ((t - (t0 - off)) / d * 100) 100); [done|].
    apply Q.le_min_l.
Qed.

(** X4.  While playing and before the end of the buffer, a frame keeps the
    update loop going: isPlaying stays true, the progress is the elapsed
    share of the duration, and exactly one frame is pending again, that of
    a render in which isPlaying is true. *)
Theorem update_loop_continues s t d :
  reachable s → isPlaying s = true → buf = Some d →
  ctx_currentTime s <= t → t - startTimeRef s < d →
  ∃ s' c, step t Frame s = Done () s'
          ∧ isPlaying s' = true
          ∧ progress s' == (t - startTimeRef s) / d * 100
          ∧ progress s' < 100
          ∧ raf_pending s' = [(animationFrameRef s', c)]
          ∧ c_isPlaying c = true.
Proof.
  intros Hr Hp Hd Ht Hlt. apply reachable_Inv in Hr; [|done].
  pose proof (buf_positive d Hd) as Hpos.
  assert (Frame ≠ Unmount) as Hu by done.
  destruct (step_transition buf buf_positive s t Frame Hr Hu Ht)
    as (s' & Hrun & Htr & _).
  assert ((t - startTimeRef s) / d * 100 < 100) as Hlt100.
  { apply Qnot_le_lt. intros Hge. apply (percent_ge_100 d Hpos) in Hge.
    exact (Qle_not_lt _ _ Hge Hlt). }
  inversion Htr as [| | | | |Hp' _|c d1 _ Hq Hc Hd1 _ Hcp|c d1 _ _ Hd1 Hge];
    subst; post.
  - congruence.
  - assert (d1 = d) as -> by congruence.
    eexists _, c. split; [done|]. post. unfold currentProgress. post.
    rewrite Q.min_l by lra. by split_and!.
  - assert (d1 = d) as -> by congruence. exfalso.
    unfold currentProgress in Hge. post.
    apply (Qle_not_lt _ _ Hge).
    apply Qle_lt_trans with ((t - startTimeRef s) / d * 100); [|done].
    apply Q.le_min_l.
Qed.

(** X5.  A reachable player that is paused has no frame pending, so a
    frame event leaves it as it is. *)
Theorem paused_player_ignores_frames s t :
  reachable s → isPlaying s = false → ctx_currentTime s <= t →
  raf_pending s = []
  ∧ step t Frame s = Done () (set_ctx_currentTime t s).
Proof.
  intros Hr Hp Ht. apply reachable_Inv in Hr; [|done].
  pose proof (inv_paused _ _ Hr Hp) as Hq. split; [done|].
  unfold step. by apply frame_idle_run.
Qed.


(** X7.  The source node in the handle feeds the gain node in
    [gainNodeRef], that gain node feeds the destination, and its gain is
    the stored volume in single precision, the nearest number a gain
    can hold. *)
Theorem owned_node_plays_at_stored_volume s h n :
  reachable s → audioSourceRef s = Some h → ctx_sources s !! h = Some n →
  ∃ g gn, n_output n = Some g ∧ gainNodeRef s = Some g
          ∧ ctx_gains s !! g = Some gn
          ∧ g_value gn = fround (volume s) ∧ g_toDestination gn = true.
Proof.
  intros Hr Href Hn. apply reachable_Wired in Hr as [].
  destruct (wired_sources0 h n Hn) as (_ & Hout & _).
  pose proof (wired_owned0 h Href) as Hg.
  destruct (wired_volume0 h Hg) as (gn & Hgn & Hv).
  exists h, gn. split_and!; try done. by eapply wired_gains0.
Qed.

(** X8.  Every source node a reachable state holds is fully set up: it
    carries the buffer of the session, was started, and feeds a gain node
    of its own that feeds the destination; and once a node exists the
    audio context has been resumed. *)
Theorem audio_graph_is_wired s :
  reachable s →
  length (ctx_gains s) = length (ctx_sources s)
  ∧ (ctx_sources s ≠ [] → ctx_state s = running)
  ∧ ∀ h n, ctx_sources s !! h = Some n →
      n_buffer n = buf ∧ is_Some (n_started n) ∧ n_output n = Some h
      ∧ ∃ gn, ctx_gains s !! h = Some gn ∧ g_toDestination gn = true.
Proof.
  intros Hr. apply reachable_Wired in Hr as []. split_and!; try done.
  intros h n Hn. destruct (wired_sources0 h n Hn) as (Hb & Hout & Hst).
  split_and!; try done.
  assert (h < length (ctx_gains s))%nat as Hlt.
  { rewrite wired_count0. by eapply lookup_lt_Some. }
  apply lookup_lt_is_Some in Hlt as [gn Hgn].
  exists gn. split; [done|]. by eapply wired_gains0.
Qed.

(** X9.  Restart followed by play starts over: the new source node is
    started at offset 0, the anchor is the time of the play, and the
    progress is 0. *)
Theorem restart_then_play_starts_over s t1 t2 d :
  reachable s → buf = Some d → ctx_currentTime s <= t1 → t1 <= t2 →
  ∃ s1 s2 g offset,
    step t1 Restart s = Done () s1 ∧ step t2 Toggle s1 = Done () s2
    ∧ offset == 0
    ∧ ctx_sources s2
      = ctx_sources s1 ++ [started_source d g (Qmax 0 t2) offset]
    ∧ audioSourceRef s2 = Some (length (ctx_sources s1))
    ∧ startTimeRef s2 == t2
    ∧ isPlaying s2 = true ∧ progress s2 = 0.
Proof.
  intros Hr Hd Ht1 Ht2. apply reachable_Inv in Hr; [|done].
  pose proof (Inv_restarted buf _ (Inv_advance buf buf_positive s t1 Hr Ht1))
    as HI1.
  set (s1 := restarted (set_ctx_currentTime t1 s)) in *.
  exists s1, (resumed d (set_ctx_currentTime t2 s1)), (length (ctx_gains s1)),
    (progress s1 / 100 * d).
  assert (progress s1 / 100 * d == 0) as Hoff by (subst s1; post; field).
  split_and!; try done.
  - unfold step. apply restart_run.
  - by apply (step_play buf buf_positive).
  - post. rewrite Hoff. ring.
Qed.

(** X10.  Time spent paused is not counted: after a pause at progress p
    and a play at t2, the progress a frame at t3 stores is computed from
    p, t2 and t3 alone, as the time elapsed since the anchor
    [t2 - (p / 100) * duration]; the time of the pause does not enter. *)
Theorem paused_time_is_not_counted s t1 t2 t3 d :
  reachable s → isPlaying s = true → buf = Some d →
  ctx_currentTime s <= t1 → t1 <= t2 → t2 <= t3 →
  ∃ s1 s2 s3,
    step t1 Toggle s = Done () s1 ∧ step t2 Toggle s1 = Done () s2
    ∧ step t3 Frame s2 = Done () s3
    ∧ progress s1 = progress s
    ∧ progress s3
      == Qmin ((t3 - (t2 - progress s / 100 * d)) / d * 100) 100.
Proof.
  intros Hr Hp Hd Ht1 Ht2 Ht3. apply reachable_Inv in Hr; [|done].
  pose proof (buf_positive d Hd) as Hpos.
  pose proof (Inv_paused buf _ (Inv_advance buf buf_positive s t1 Hr Ht1))
    as HI1.
  set (s1 := set_isPlaying false (stopped (set_ctx_currentTime t1 s))) in *.
  assert (isPlaying s1 = false) as Hp1 by done.
  assert (ctx_currentTime s1 <= t2) as Ht2' by done.
  pose proof (Inv_resumed buf buf_positive _ d
                (Inv_advance buf buf_positive s1 t2 HI1 Ht2') Hp1 Hd) as HI2.
  set (s2 := resumed d (set_ctx_currentTime t2 s1)) in *.
  assert (ctx_currentTime s2 <= t3) as Ht3' by done.
  assert (Frame ≠ Unmount) as Hu by done.
  destruct (step_transition buf buf_positive s2 t3 Frame HI2 Hu Ht3')
    as (s3 & Hrun & Htr & _).
  exists s1, s2, s3. split_and!; try done.
  - by apply step_pause.
  - by apply (step_play buf buf_positive).
  - assert ((t3 - startTimeRef s2) / d * 100
            == (t3 - (t2 - progress s / 100 * d)) / d * 100) as Heq.
    { subst s2 s1. post. reflexivity. }
    inversion Htr as [| | | | |Hp' _|c d1 _ _ _ Hd1 _ _|c d1 _ _ Hd1 Hge];
      subst; post.
    + done.
    + assert (d1 = d) as -> by congruence.
      unfold currentProgress. post. fold s1. fold s2. by rewrite Heq.
    + assert (d1 = d) as -> by congruence.
      unfold completed. post.
      unfold currentProgress in Hge. post. fold s1 in Hge. fold s2 in Hge.
      rewrite Heq in Hge. symmetry. apply Q.min_r.
      apply Qle_trans
        with (Qmin ((t3 - (t2 - progress s / 100 * d)) / d * 100) 100);
        [done|].
      apply Q.le_min_l.
Qed.

End PlayerGraph.

(** X11.  The [updateProgress] of a render in which isPlaying was false
    never requests a frame: the queue and the request counter stay as
    they are.  (Such is the frame [playAudio] itself requests; the effect
    of the next render replaces it.) *)
Theorem stale_frame_never_reschedules c s :
  c_isPlaying c = false →
  ∃ s', updateProgress c s = Done () s'
        ∧ raf_pending s' = raf_pending s ∧ raf_next s' = raf_next s
        ∧ animationFrameRef s' = animationFrameRef s.
Proof.
  intros Hc. destruct (session_audioBuffer s) as [d|] eqn:Hb.
  - destruct (Qlt_le_dec (currentProgress d s) 100) as [Hlt|Hge].
    + eexists. split; [by apply (updateProgress_stale c s d)|done].
    + eexists. split; [by apply (updateProgress_complete c s d)|done].
  - exists s. split; [by apply updateProgress_no_buffer|done].
Qed.

(** * The script panel *)

Lemma split_on_nonempty sep s : split_on sep s ≠ [].
Proof.
  destruct s as [|c s]; [done|]. cbn.
  destruct (c =? sep)%N; [done|]. by destruct (split_on sep s).
Qed.

Lemma join_split sep s : join_with sep (split_on sep s) = s.
Proof.
  induction s as [|c s IH]; [done|]. cbn [split_on].
  destruct (c =? sep)%N eqn:Hc.
  - apply N.eqb_eq in Hc as ->. pose proof (split_on_nonempty sep s).
    cbn. destruct (split_on sep s) as [|p ps] eqn:Hs; [done|].
    cbn in IH |- *. by rewrite IH.
  - pose proof (split_on_nonempty sep s).
    destruct (split_on sep s) as [|p ps] eqn:Hs; [done|].
    cbn in IH |- *. destruct ps; cbn in *; by rewrite <- IH.
Qed.

Lemma split_on_length sep s :
  length (split_on sep s) = S (length (filter (λ c, c = sep) s)).
Proof.
  induction s as [|c s IH]; [done|]. cbn [split_on].
  rewrite (filter_cons (λ c0, c0 = sep)). destruct (c =? sep)%N eqn:Hc.
  - apply N.eqb_eq in Hc as ->. rewrite decide_True by done.
    cbn [length]. f_equal. exact IH.
  - apply N.eqb_neq in Hc. rewrite decide_False by done.
    pose proof (split_on_nonempty sep s).
    destruct (split_on sep s) as [|p ps] eqn:Hs; [done|]. exact IH.
Qed.

Lemma split_on_no_sep sep s piece : piece ∈ split_on sep s → sep ∉ piece.
Proof.
  revert piece. induction s as [|c s IH]; intros piece Hin.
  - cbn in Hin. apply list_elem_of_singleton in Hin as ->. apply not_elem_of_nil.
  - cbn [split_on] in Hin. destruct (c =? sep)%N eqn:Hc.
    + apply elem_of_cons in Hin as [->|Hin]; [apply not_elem_of_nil|by apply IH].
    + apply N.eqb_neq in Hc. pose proof (split_on_nonempty sep s).
      destruct (split_on sep s) as [|p ps] eqn:Hs; [done|].
      apply elem_of_cons in Hin as [->|Hin].
      * intros Hsep. apply elem_of_cons in Hsep as [->|Hsep]; [done|].
        by apply (IH p); [left|].
      * apply IH. by right.
Qed.

(** X12.  The script panel shows the whole script: the paragraphs, joined
    by newlines, are the script; a script with k newlines gives k + 1
    paragraphs (empty lines give empty paragraphs), none of which
    contains a newline; and their keys are 0, 1, 2, ... in order. *)
Theorem script_paragraphs_reproduce_script script :
  join_with 10 ((scriptParagraphs script).*2) = script
  ∧ length (scriptParagraphs script)
    = S (length (filter (λ c, c = 10%N) script))
  ∧ (scriptParagraphs script).*1 = seq 0 (length (scriptParagraphs script))
  ∧ ∀ p, p ∈ scriptParagraphs script → 10%N ∉ p.2.
Proof.
  unfold scriptParagraphs.
  assert (∀ (l : list jsstring) k,
            (imap (λ i line, (k + i, line)) l).*2 = l
            ∧ (imap (λ i line, (k + i, line)) l).*1 = seq k (length l))%nat
    as Himap.
  { induction l as [|x l IH]; intros k; [done|]. cbn.
    rewrite Nat.add_0_r.
    destruct (IH (S k)) as [IH1 IH2]. split; f_equal.
    - rewrite <- IH1 at 2. f_equal. apply imap_ext. intros i y _. cbn.
      f_equal. lia.
    - rewrite <- IH2. f_equal. apply imap_ext. intros i y _. cbn.
      f_equal. lia. }
  destruct (Himap (split_on 10 script) 0%nat) as [H2 H1]. cbn in H1, H2.
  rewrite length_imap. split_and!.
  - rewrite H2. apply join_split.
  - apply split_on_length.
  - done.
  - intros [i line] Hin. cbn. apply (split_on_no_sep _ script).
    rewrite <- H2. apply list_elem_of_fmap. by exists (i, line).
Qed.

(** * The services *)

Lemma truthy_nonempty s : truthy s = true ↔ s ≠ [].
Proof. by destruct s. Qed.

Lemma opt_or_truthy a b : truthy b = true → truthy (opt_or a b) = true.
Proof.
  intros Hb. destruct a as [s|]; [|done]. unfold opt_or, str_or.
  by destruct (truthy s) eqn:Hs.
Qed.

Lemma opt_or_given s b : s ≠ [] → opt_or (Some s) b = s.
Proof. intros Hs. unfold opt_or, str_or. by destruct s. Qed.

Lemma opt_or_missing a b : a = None ∨ a = Some [] → opt_or a b = b.
Proof. by intros [-> | ->]. Qed.

(** X13.  A session that [generateMeditationContent] delivers always has
    a title and an image prompt.  It is made from the object that
    [JSON.parse] returns for the text of the reply (for [{}] when the
    reply has none): a field that is missing from that object, or empty,
    is replaced by its default, and a field that is there is passed on as
    it is.  The session carries no image and no audio yet. *)
Theorem content_has_title_and_image_prompt
    generateContent JSON_parse mood focus duration session :
  Gemini.generateMeditationContent generateContent JSON_parse
    mood focus duration = Gemini.Fulfilled session →
  Gemini.title session ≠ [] ∧ Gemini.imagePrompt session ≠ []
  ∧ Gemini.imageUrl session = None ∧ Gemini.audioBuffer session = None
  ∧ ∃ response json,
      generateContent
        (Gemini.JsonRequest (js "gemini-3-pro-preview")
           (Gemini.contentPrompt mood focus duration)
           (js "application/json"))
      = Gemini.Fulfilled response
      ∧ JSON_parse (opt_or (Gemini.text response) (js "{}"))
        = Some (Some json)
      ∧ (∀ t, Gemini.json_title json = Some t → t ≠ [] →
              Gemini.title session = t)
      ∧ (Gemini.json_title json = None ∨ Gemini.json_title json = Some [] →
         Gemini.title session = js "Meditation Session")
      ∧ (∀ t, Gemini.json_imagePrompt json = Some t → t ≠ [] →
              Gemini.imagePrompt session = t)
      ∧ (Gemini.json_imagePrompt json = None
         ∨ Gemini.json_imagePrompt json = Some [] →
         Gemini.imagePrompt session
         = js "A peaceful abstract landscape with soft colors")
      ∧ (∀ t, Gemini.json_script json = Some t →
              Gemini.script session = t)
      ∧ (Gemini.json_script json = None → Gemini.script session = []).
Proof.
  unfold Gemini.generateMeditationContent, Gemini.andThen.
  destruct (generateContent _) as [response|e] eqn:Hreply; [|done].
  destruct (JSON_parse _) as [[json|]|] eqn:Hparse; [|done..].
  intros [= <-]. cbn. split_and!; try done.
  - by apply truthy_nonempty, opt_or_truthy.
  - by apply truthy_nonempty, opt_or_truthy.
  - exists response, json. split_and!; try done.
    + intros t -> Ht. by apply opt_or_given.
    + apply opt_or_missing.
    + intros t -> Ht. by apply opt_or_given.
    + apply opt_or_missing.
    + intros t ->. by destruct t.
    + by intros ->.
Qed.

(** X14.  A reply without text does not make [generateMeditationContent]
    fail: the text [{}] is parsed in its place, and the session is made of
    the three defaults, with an empty script. *)
Theorem empty_reply_gives_default_session
    generateContent JSON_parse mood focus duration response :
  JSON_parse (js "{}")
  = Some (Some {| Gemini.json_title := None; Gemini.json_script := None;
                  Gemini.json_imagePrompt := None |}) →
  generateContent
    (Gemini.JsonRequest (js "gemini-3-pro-preview")
       (Gemini.contentPrompt mood focus duration) (js "application/json"))
  = Gemini.Fulfilled response →
  Gemini.text response = None ∨ Gemini.text response = Some [] →
  Gemini.generateMeditationContent generateContent JSON_parse
    mood focus duration
  = Gemini.Fulfilled
      {| Gemini.title := js "Meditation Session"; Gemini.script := [];
         Gemini.imagePrompt :=
           js "A peaceful abstract landscape with soft colors";
         Gemini.imageUrl := None; Gemini.audioBuffer := None |}.
Proof.
  intros Hparse Hreply Htext.
  unfold Gemini.generateMeditationContent, Gemini.andThen. rewrite Hreply.
  assert (opt_or (Gemini.text response) (js "{}") = js "{}") as ->.
  { by destruct Htext as [-> | ->]. }
  by rewrite Hparse.
Qed.

Lemma image_url_is_data_url_or_fallback_aux generateImages prompt :
  ∃ url,
    Gemini.generateMeditationImage generateImages prompt
    = Gemini.Fulfilled url ∧ url ≠ [].
Proof.
  unfold Gemini.generateMeditationImage, Gemini.tryCatch, Gemini.andThen.
  destruct (generateImages _) as [response|e];
    [|by exists Gemini.fallbackImage].
  destruct (Gemini.generatedImages response) as [[|img imgs]|];
    cbn; try (by exists Gemini.fallbackImage).
  destruct (Gemini.image img) as [i|];
    cbn; try (by exists Gemini.fallbackImage).
  destruct (Gemini.imageBytes i) as [[|b bytes]|];
    cbn; try (by exists Gemini.fallbackImage).
  by eexists.
Qed.

(** X15.  [generateMeditationImage] never rejects and never delivers an
    empty URL.  When the request succeeds and the first image of the
    reply has bytes, it delivers the data URL of these bytes; in every
    other case, a failed request included, it delivers the fallback
    picture. *)
Theorem image_url_is_data_url_or_fallback generateImages prompt :
  let request :=
    Gemini.ImageRequest (js "imagen-4.0-generate-001")
      (prompt
       ++ js ", photorealistic, 8k, serene, cinematic lighting, peaceful atmosphere")
      (js "image/jpeg") (js "3:4") 1 in
  let has_bytes bytes :=
    ∃ response img rest,
      generateImages request = Gemini.Fulfilled response
      ∧ Gemini.generatedImages response = Some (img :: rest)
      ∧ (Gemini.image img ≫= Gemini.imageBytes) = Some bytes
      ∧ bytes ≠ [] in
  (∃ url, Gemini.generateMeditationImage generateImages prompt
          = Gemini.Fulfilled url ∧ url ≠ [])
  ∧ (∀ bytes, has_bytes bytes →
       Gemini.generateMeditationImage generateImages prompt
       = Gemini.Fulfilled (js "data:image/jpeg;base64," ++ bytes))
  ∧ ((∀ bytes, ¬ has_bytes bytes) →
       Gemini.generateMeditationImage generateImages prompt
       = Gemini.Fulfilled Gemini.fallbackImage).
Proof.
  intros request has_bytes. split; [apply image_url_is_data_url_or_fallback_aux|].
  unfold Gemini.generateMeditationImage, Gemini.tryCatch, Gemini.andThen.
  fold request. set (prefix := js "data:image/jpeg;base64,"). split.
  - intros bytes (response & img & rest & -> & Himgs & Hb & Hne).
    rewrite Himgs. cbn -[Gemini.fallbackImage].
    destruct (Gemini.image img) as [i|]; [|done].
    cbn in Hb. cbn -[Gemini.fallbackImage]. rewrite Hb. by destruct bytes.
  - intros Hnone.
    destruct (generateImages request) as [response|e] eqn:Hreply; [|done].
    destruct (Gemini.generatedImages response) as [[|img imgs]|] eqn:Himgs;
      cbn; try done.
    destruct (Gemini.image img) as [i|] eqn:Hi; cbn; try done.
    destruct (Gemini.imageBytes i) as [bytes|] eqn:Hb; cbn; try done.
    destruct bytes as [|b bytes]; [done|].
    destruct (Hnone (b :: bytes)). exists response, img, imgs.
    split_and!; try done. by rewrite Hi.
Qed.

Lemma audio_never_rejects
    generateContent Bytes decode decodeAudioData text :
  ∃ result,
    Gemini.generateMeditationAudio generateContent Bytes decode
      decodeAudioData text = Gemini.Fulfilled result.
Proof.
  unfold Gemini.generateMeditationAudio, Gemini.tryCatch.
  destruct (Gemini.andThen _ _); by eexists.
Qed.

(** X16.  [generateMeditationAudio] never rejects: a failed request, a
    reply without audio data and a failure to decode all end in
    [undefined].  A buffer is delivered only when the first part of the
    first candidate carries data and both decoding steps succeed on it,
    at 24000 Hz and one channel. *)
Theorem audio_is_decoded_or_undefined
    generateContent Bytes decode decodeAudioData text :
  ∃ result,
    Gemini.generateMeditationAudio generateContent Bytes decode
      decodeAudioData text = Gemini.Fulfilled result
    ∧ ∀ audioBuffer, result = Some audioBuffer →
        ∃ response c cs ct p ps b audio bytes,
          generateContent
            (Gemini.SpeechRequest (js "gemini-2.5-flash-preview-tts") text
               (js "Kore"))
          = Gemini.Fulfilled response
          ∧ Gemini.candidates response = Some (c :: cs)
          ∧ Gemini.content c = Some ct
          ∧ Gemini.parts ct = Some (p :: ps)
          ∧ Gemini.inlineData p = Some b
          ∧ Gemini.data b = Some audio ∧ audio ≠ []
          ∧ decode audio = Gemini.Fulfilled bytes
          ∧ decodeAudioData bytes 24000%N 1%N = Gemini.Fulfilled audioBuffer.
Proof.
  unfold Gemini.generateMeditationAudio, Gemini.tryCatch, Gemini.andThen.
  destruct (generateContent _) as [response|e] eqn:Hreply;
    [|by exists None].
  destruct (Gemini.candidates response) as [[|c cs]|] eqn:Hcs;
    cbn; try (by exists None).
  destruct (Gemini.content c) as [ct|] eqn:Hct; cbn; try (by exists None).
  destruct (Gemini.parts ct) as [[|p ps]|] eqn:Hps;
    cbn; try (by exists None).
  destruct (Gemini.inlineData p) as [b|] eqn:Hb; cbn; try (by exists None).
  destruct (Gemini.data b) as [[|a audio]|] eqn:Hd;
    cbn; try (by exists None).
  destruct (decode (a :: audio)) as [bytes|e] eqn:Hdec; [|by exists None].
  destruct (decodeAudioData bytes 24000%N 1%N) as [q|e] eqn:Hbuf;
    [|by exists None].
  exists (Some q). split; [done|]. intros ? [= <-].
  by exists response, c, cs, ct, p, ps, b, (a :: audio), bytes.
Qed.

Lemma converse_from sendMessage messages sent :
  (Gemini.converse sendMessage messages
     {| Gemini.chatSession := Some 0%nat; Gemini.chats := [sent] |}).2
  = {| Gemini.chatSession := Some 0%nat;
       Gemini.chats := [sent ++ messages] |}
  ∧ length (Gemini.converse sendMessage messages
              {| Gemini.chatSession := Some 0%nat;
                 Gemini.chats := [sent] |}).1
    = length messages.
Proof.
  revert sent. induction messages as [|m ms IH]; intros sent.
  - cbn. by rewrite app_nil_r.
  - cbn. destruct (IH (sent ++ [m])) as [IH1 IH2].
    destruct (Gemini.converse sendMessage ms _) as [rs s2].
    cbn in *. rewrite IH1, IH2, <- app_assoc. done.
Qed.

(** X17.  However many messages are sent to the guide, one chat is
    created, by the first of them, and it receives all the messages in
    the order they were sent; every message gets a reply. *)
Theorem one_chat_receives_all_messages sendMessage m messages :
  let '(replies, s) :=
    Gemini.converse sendMessage (m :: messages) Gemini.initial in
  Gemini.chatSession s = Some 0%nat
  ∧ Gemini.chats s = [m :: messages]
  ∧ length replies = S (length messages).
Proof.
  cbn. pose proof (converse_from sendMessage messages [m]) as [H1 H2].
  cbn in H1, H2.
  destruct (Gemini.converse sendMessage messages _) as [rs s2].
  cbn in *. by rewrite H1, H2.
Qed.

(** X18.  [sendMessageToGuide] never rejects and never delivers an empty
    reply: it delivers the text of the guide when there is one, the
    sentence "I am here with you. Take a deep breath." when the text is
    missing or empty, and the sentence about the trouble connecting when
    the request failed. *)
Theorem guide_always_answers sendMessage message s :
  let chat := (Gemini.getChatSession s).1 in
  let sent := default [] (Gemini.chats (Gemini.getChatSession s).2 !! chat) in
  ∃ reply,
    (Gemini.sendMessageToGuide sendMessage message s).1
    = Gemini.Fulfilled reply
    ∧ reply ≠ []
    ∧ (∀ t, sendMessage chat sent message = Gemini.Fulfilled (Some t) →
            t ≠ [] → reply = t)
    ∧ (sendMessage chat sent message = Gemini.Fulfilled None
       ∨ sendMessage chat sent message = Gemini.Fulfilled (Some []) →
       reply = js "I am here with you. Take a deep breath.")
    ∧ (∀ e, sendMessage chat sent message = Gemini.Rejected e →
            reply
            = js "I'm having trouble connecting to the universal energy (API error). Please try again.").
Proof.
  unfold Gemini.sendMessageToGuide.
  destruct (Gemini.getChatSession s) as [chat s1] eqn:Hchat. cbn.
  unfold Gemini.guideReply, Gemini.tryCatch, Gemini.andThen.
  destruct (sendMessage chat _ message) as [[t|]|e] eqn:Hsend.
  - eexists. split; [done|]. split_and!.
    + by apply truthy_nonempty, opt_or_truthy.
    + intros t' [= ->] Ht'. by apply opt_or_given.
    + intros [|[= ->]]; done.
    + done.
  - eexists. split; [done|].
    split_and!; [done|by intros ? [=]|by intros _|by intros ? [=]].
  - eexists. split; [done|].
    split_and!; [done|by intros ? [=]|by intros [[=]|[=]]|by intros ? _].
Qed.

(** * The chat widget *)

Lemma trimStart_nil s :
  trimStart s = [] ↔ Forall (λ c, is_whitespace c = true) s.
Proof.
  induction s as [|c s IH]; [done|]. cbn.
  destruct (is_whitespace c) eqn:Hc.
  - rewrite IH. split; [by constructor|by inversion 1].
  - split; [done|]. inversion 1. congruence.
Qed.

Lemma trimStart_whitespace s :
  Forall (λ c, is_whitespace c = true) (trimStart s) → trimStart s = [].
Proof.
  induction s as [|c s IH]; [done|]. cbn.
  destruct (is_whitespace c) eqn:Hc; [done|].
  inversion 1. congruence.
Qed.

Lemma rev_nil {A} (l : list A) : rev l = [] ↔ l = [].
Proof.
  split; [|by intros ->]. destruct l as [|x l]; [done|]. cbn.
  intros H. by destruct (rev l).
Qed.

(** [trim] leaves nothing exactly of the strings made of whitespace. *)
Lemma trim_nil s : trim s = [] ↔ Forall (λ c, is_whitespace c = true) s.
Proof.
  unfold trim. split.
  - intros H. apply rev_nil, trimStart_nil in H.
    apply trimStart_nil, trimStart_whitespace.
    apply Forall_forall. intros c Hc.
    rewrite Forall_forall in H. apply H.
    apply list_elem_of_In, in_rev. rewrite rev_involutive.
    by apply list_elem_of_In.
  - intros H. apply trimStart_nil in H. by rewrite H.
Qed.

(** X19.  [handleSend] sends exactly when the input holds a code unit
    that is not whitespace and no reply is awaited.  It then appends the
    input as it was typed, untrimmed, as a message of the user, clears
    the input and awaits the reply; otherwise it does nothing. *)
Theorem send_needs_visible_text now w :
  (Forall (λ c, is_whitespace c = true) (ChatWidget.input w)
   ∨ ChatWidget.isTyping w = true →
   ChatWidget.handleSend now w = w)
  ∧ (¬ Forall (λ c, is_whitespace c = true) (ChatWidget.input w) →
     ChatWidget.isTyping w = false →
     ChatWidget.messages (ChatWidget.handleSend now w)
     = ChatWidget.messages w
       ++ [{| ChatWidget.role := ChatWidget.user;
              ChatWidget.text := ChatWidget.input w;
              ChatWidget.timestamp := now |}]
     ∧ ChatWidget.input (ChatWidget.handleSend now w) = []
     ∧ ChatWidget.isTyping (ChatWidget.handleSend now w) = true
     ∧ ChatWidget.pending (ChatWidget.handleSend now w)
       = ChatWidget.pending w ++ [ChatWidget.input w]).
Proof.
  unfold ChatWidget.handleSend. split.
  - intros [Hblank|Htyping].
    + apply trim_nil in Hblank. by rewrite Hblank.
    + rewrite Htyping. by rewrite orb_true_r.
  - intros Hvisible ->. rewrite <- trim_nil in Hvisible.
    by destruct (trim (ChatWidget.input w)).
Qed.

Lemma widget_pending_inv w :
  ChatWidget.reachable w →
  (ChatWidget.isTyping w = false ∧ ChatWidget.pending w = [])
  ∨ (ChatWidget.isTyping w = true ∧ ∃ t, ChatWidget.pending w = [t]).
Proof.
  induction 1 as [now|w e _ IH Hen]; [by left|].
  destruct e as [value|now|i r now| |]; cbn; try done.
  - unfold ChatWidget.handleSend.
    destruct IH as [[Ht Hp]|[Ht Hp]]; rewrite Ht.
    + destruct (truthy (trim (ChatWidget.input w))); cbn; [|by left].
      right. split; [done|]. rewrite Hp. by eexists.
    + rewrite orb_true_r. by right.
  - unfold ChatWidget.handleSend_settled. cbn in Hen.
    apply bool_decide_eq_true in Hen as [t Ht]. rewrite Ht. cbn.
    destruct IH as [[_ Hp]|[_ [t' Hp]]]; rewrite Hp in *; [done|].
    left. destruct i; [done|]. by destruct i.
Qed.

(** X20.  The widget awaits at most one reply at a time: isTyping is true
    exactly while one is awaited, and until it has arrived a further send
    does nothing. *)
Theorem one_reply_awaited_at_a_time w :
  ChatWidget.reachable w →
  (length (ChatWidget.pending w) ≤ 1)%nat
  ∧ (ChatWidget.isTyping w = true ↔ ChatWidget.pending w ≠ [])
  ∧ (ChatWidget.pending w ≠ [] →
     ∀ now, ChatWidget.handleSend now w = w).
Proof.
  intros Hr. destruct (widget_pending_inv w Hr) as [[Ht Hp]|[Ht [t Hp]]];
    rewrite Ht, Hp; split_and!; try done; cbn; try lia.
  intros _ now. unfold ChatWidget.handleSend. rewrite Ht.
  by rewrite orb_true_r.
Qed.

Lemma alternating_snoc first ms m :
  ChatWidget.alternating first (ms ++ [m])
  = ChatWidget.alternating first ms
    && bool_decide
         (ChatWidget.role m
          = if Nat.even (length ms) then first else ChatWidget.other_role first).
Proof.
  revert first. induction ms as [|x ms IH]; intros first.
  - cbn. by destruct first, (ChatWidget.role m).
  - cbn [app ChatWidget.alternating length].
    destruct first, (ChatWidget.role x) eqn:Hx; try done.
    + rewrite IH. f_equal. rewrite Nat.even_succ, <- Nat.negb_even.
      by destruct (Nat.even (length ms)).
    + rewrite IH. f_equal. rewrite Nat.even_succ, <- Nat.negb_even.
      by destruct (Nat.even (length ms)).
Qed.

Lemma guideReply_fulfilled outcome :
  ∃ t, Gemini.guideReply outcome = Gemini.Fulfilled t ∧ t ≠ [].
Proof.
  unfold Gemini.guideReply, Gemini.tryCatch, Gemini.andThen.
  destruct outcome as [[t|]|e]; eexists; (split; [done|]); try done.
  by apply truthy_nonempty, opt_or_truthy.
Qed.

Lemma guided_inv w :
  ChatWidget.reachable_with_guide w →
  ChatWidget.alternating ChatWidget.model (ChatWidget.messages w) = true
  ∧ Forall (λ m, ChatWidget.text m ≠ []) (ChatWidget.messages w)
  ∧ ((ChatWidget.isTyping w = false ∧ ChatWidget.pending w = []
      ∧ Nat.even (length (ChatWidget.messages w)) = false)
     ∨ (ChatWidget.isTyping w = true ∧ (∃ t, ChatWidget.pending w = [t])
        ∧ Nat.even (length (ChatWidget.messages w)) = true)).
Proof.
  induction 1 as [now|w i outcome now _ IH Hen|w e _ IH Hen Hne].
  - cbn. split_and!; [done| |by left]. by repeat constructor.
  - destruct IH as (Halt & Htext & Hst).
    destruct (guideReply_fulfilled outcome) as (t & -> & Ht).
    cbn in Hen |- *. apply bool_decide_eq_true in Hen as [t0 Hi].
    unfold ChatWidget.handleSend_settled. rewrite Hi. cbn.
    destruct Hst as [(_ & Hp & _)|(_ & [t1 Hp] & Hev)];
      [by rewrite Hp in Hi|].
    split_and!.
    + rewrite alternating_snoc, Halt, Hev. done.
    + apply Forall_app. split; [done|]. by repeat constructor.
    + left. split_and!; [done| |].
      * rewrite Hp in *. destruct i; [done|]. by destruct i.
      * rewrite length_app, Nat.add_1_r, Nat.even_succ, <- Nat.negb_even.
        by rewrite Hev.
  - destruct IH as (Halt & Htext & Hst).
    destruct e as [value|now|i r now| |]; cbn; try done.
    + unfold ChatWidget.handleSend.
      destruct Hst as [(Ht & Hp & Hev)|(Ht & Hp & Hev)]; rewrite Ht.
      * destruct (trim (ChatWidget.input w)) as [|c tr] eqn:Htrim; cbn;
          [by split_and!; [..|left]|].
        split_and!.
        -- rewrite alternating_snoc, Halt, Hev. done.
        -- apply Forall_app. split; [done|]. repeat constructor. cbn.
           intros Hnil. by rewrite Hnil in Htrim.
        -- right. split_and!; [done|rewrite Hp; by eexists|].
           rewrite length_app, Nat.add_1_r, Nat.even_succ, <- Nat.negb_even.
           by rewrite Hev.
      * rewrite orb_true_r. by split_and!; [..|right].
    + by destruct (Hne i r now).
Qed.

(** X21.  With the guide as the service, the conversation alternates:
    the greeting of the guide, then a message of the user, then the reply
    of the guide, and so on; no message is empty; and a reply is awaited
    exactly when the last message is one of the user. *)
Theorem conversation_alternates w :
  ChatWidget.reachable_with_guide w →
  ChatWidget.alternating ChatWidget.model (ChatWidget.messages w) = true
  ∧ Forall (λ m, ChatWidget.text m ≠ []) (ChatWidget.messages w)
  ∧ ChatWidget.isTyping w = Nat.even (length (ChatWidget.messages w))
  ∧ ∃ m, last (ChatWidget.messages w) = Some m
         ∧ ChatWidget.role m
           = if ChatWidget.isTyping w then ChatWidget.user
             else ChatWidget.model.
Proof.
  intros Hr. destruct (guided_inv w Hr) as (Halt & Htext & Hst).
  split_and!; [done|done|by destruct Hst as [(-> & _ & ->)|(-> & _ & ->)]|].
  assert (ChatWidget.isTyping w = Nat.even (length (ChatWidget.messages w)))
    as Hev by (by destruct Hst as [(-> & _ & ->)|(-> & _ & ->)]).
  destruct (ChatWidget.messages w) as [|x ms] eqn:Hms using rev_ind.
  - destruct Hst as [(_ & _ & ?)|(_ & [t Hp] & _)]; [done|].
    exfalso. clear -Hr Hms.
    induction Hr as [now|w i outcome now _ IH _|w e _ IH _ _]; [done| |].
    + cbn in Hms. unfold ChatWidget.handleSend_settled in Hms.
      destruct (ChatWidget.pending w !! i); [|by apply IH].
      cbn in Hms. destruct (Gemini.guideReply outcome);
        [by destruct (ChatWidget.messages w)|by apply IH].
    + destruct e; cbn in Hms; try by apply IH.
      * unfold ChatWidget.handleSend in Hms.
        destruct (_ || _); [by apply IH|].
        cbn in Hms. by destruct (ChatWidget.messages w).
      * unfold ChatWidget.handleSend_settled in Hms.
        destruct (ChatWidget.pending w !! i); [|by apply IH].
        cbn in Hms. destruct r;
          [by destruct (ChatWidget.messages w)|by apply IH].
  - clear IHms. exists x. rewrite last_snoc. split; [done|].
    rewrite alternating_snoc in Halt. apply andb_true_iff in Halt as [_ Hx].
    apply bool_decide_eq_true in Hx. rewrite Hx, Hev.
    rewrite length_app, Nat.add_1_r, Nat.even_succ, <- Nat.negb_even.
    by destruct (Nat.even (length ms)).
Qed.

(** X22.  The messages of the widget only grow: an event removes and
    changes none of them and appends at most one; the greeting stays the
    first message. *)
Theorem messages_only_grow w :
  ChatWidget.reachable w →
  (∃ now rest,
     ChatWidget.messages w
     = {| ChatWidget.role := ChatWidget.model;
          ChatWidget.text := ChatWidget.greeting;
          ChatWidget.timestamp := now |} :: rest)
  ∧ ∀ e, ChatWidget.messages w
           `prefix_of` ChatWidget.messages (ChatWidget.handle e w)
         ∧ (length (ChatWidget.messages (ChatWidget.handle e w))
            ≤ S (length (ChatWidget.messages w)))%nat.
Proof.
  intros Hr.
  assert (∀ (w : ChatWidget.Widget) e,
            ChatWidget.messages (ChatWidget.handle e w) = ChatWidget.messages w
            ∨ ∃ m, ChatWidget.messages (ChatWidget.handle e w)
                   = ChatWidget.messages w ++ [m]) as Hgrow.
  { intros w' e. destruct e as [value|now|i r now| |]; cbn; auto.
    - unfold ChatWidget.handleSend. destruct (_ || _); cbn; eauto.
    - unfold ChatWidget.handleSend_settled.
      destruct (ChatWidget.pending w' !! i); cbn; auto.
      destruct r; eauto. }
  split.
  - induction Hr as [now|w e _ (now & rest & IH) _]; [by eexists _, _|].
    destruct (Hgrow w e) as [->|[m ->]]; [by eexists _, _|].
    rewrite IH. by eexists _, _.
  - intros e. destruct (Hgrow w e) as [->|[m ->]].
    + split; [done|lia].
    + split; [by apply prefix_app_r|]. rewrite length_app. cbn. lia.
Qed.

(** * The application *)

(** X23.  [handleGenerate] starts a generation exactly when mood and
    focus are both filled in: with either of them empty it does nothing at
    all; otherwise it shows the generating view and has one more call
    under way, on the parameters as they are, and leaves the session as
    it is. *)
Theorem generate_needs_mood_and_focus a :
  (App.mood (App.params a) = [] ∨ App.focus (App.params a) = [] →
   App.handleGenerate a = a)
  ∧ (App.mood (App.params a) ≠ [] → App.focus (App.params a) ≠ [] →
     App.view (App.handleGenerate a) = App.GENERATING
     ∧ App.tasks (App.handleGenerate a)
       = App.tasks a ++ [App.AwaitContent (App.params a)]
     ∧ App.session (App.handleGenerate a) = App.session a
     ∧ App.timers (App.handleGenerate a) = App.timers a).
Proof.
  unfold App.handleGenerate. split.
  - intros [-> | ->]; [done|]. by rewrite orb_true_r.
  - intros Hm Hf. apply truthy_nonempty in Hm, Hf. by rewrite Hm, Hf.
Qed.

Lemma app_inv a :
  App.reachable a →
  (App.view a = App.PLAYER → is_Some (App.session a))
  ∧ (∀ s, App.session a = Some s → is_Some (Gemini.imageUrl s))
  ∧ (App.view a = App.GENERATING →
     App.tasks a ≠ [] ∨ App.timers a ≠ 0%nat).
Proof.
  induction 1 as [|a e _ (IHp & IHs & IHg) Hen]; [done|].
  destruct e as [v|v|d| |i r|i img aud| | |]; cbn in Hen |- *;
    try (split_and!; [done..|]; done).
  - unfold App.handleGenerate.
    destruct (_ || _); [done|]. cbn. split_and!; [done|done|].
    intros _. left. by destruct (App.tasks a).
  - unfold App.handleGenerate_content.
    destruct (App.tasks a !! i) as [[p|c]|] eqn:Hi; [|done..].
    destruct r as [content|err]; cbn; (split_and!; [done|done|]).
    + intros Hv. left. intros Hnil.
      apply (f_equal length) in Hnil. rewrite length_insert in Hnil.
      apply lookup_lt_Some in Hi. cbn in Hnil. lia.
    + intros _. by right.
  - unfold App.handleGenerate_media.
    destruct (App.tasks a !! i) as [[p|c]|] eqn:Hi; [done| |done].
    destruct (App.all2 img aud) as [[imageUrl audioBuffer]|err]; cbn.
    + split_and!; [done| |done]. by intros s [= <-].
    + split_and!; [done|done|]. intros _. by right.
Qed.

(** X24.  Whenever the view is the player there is a session to show, and
    every session the application holds has an image. *)
Theorem player_view_has_session a :
  App.reachable a →
  (App.view a = App.PLAYER → App.playerShown a = true)
  ∧ ∀ s, App.session a = Some s → is_Some (Gemini.imageUrl s).
Proof.
  intros Hr. destruct (app_inv a Hr) as (Hp & Hs & _). split; [|done].
  intros Hv. unfold App.playerShown. rewrite Hv.
  by destruct (Hp Hv) as [s ->].
Qed.

(** X25.  The generating view is shown only while something is pending
    that will end it: a call of [handleGenerate] that awaits, or the timer
    that leads back home after a failure. *)
Theorem generating_view_has_something_pending a :
  App.reachable a → App.view a = App.GENERATING →
  App.tasks a ≠ [] ∨ App.timers a ≠ 0%nat.
Proof. intros Hr. by destruct (app_inv a Hr) as (_ & _ & Hg). Qed.

(** X26.  Once the content is there, the media cannot make a generation
    fail: whatever the remote service answers to the image and speech
    requests, the application shows the player, with the content, an image
    URL that is not empty, and the audio buffer if there is one.  When
    there is none, play does nothing on the player that is mounted. *)
Theorem media_cannot_fail_generation
    a i content generateImages generateContent Bytes decode decodeAudioData :
  App.tasks a !! i = Some (App.AwaitMedia content) →
  let a' :=
    App.handle
      (App.MediaSettled i
         (Gemini.generateMeditationImage generateImages
            (Gemini.imagePrompt content))
         (Gemini.generateMeditationAudio generateContent Bytes decode
            decodeAudioData (Gemini.script content))) a in
  App.view a' = App.PLAYER ∧ App.timers a' = App.timers a
  ∧ App.tasks a' = delete i (App.tasks a)
  ∧ ∃ s url,
      App.session a' = Some s
      ∧ Gemini.title s = Gemini.title content
      ∧ Gemini.script s = Gemini.script content
      ∧ Gemini.imagePrompt s = Gemini.imagePrompt content
      ∧ Gemini.imageUrl s = Some url ∧ url ≠ []
      ∧ Gemini.generateMeditationAudio generateContent Bytes decode
          decodeAudioData (Gemini.script content)
        = Gemini.Fulfilled (Gemini.audioBuffer s)
      ∧ (Gemini.audioBuffer s = None →
         ∀ st t0,
           handle Toggle (mount (Gemini.audioBuffer s) st t0)
           = Done () (mount (Gemini.audioBuffer s) st t0)).
Proof.
  intros Hi.
  destruct (image_url_is_data_url_or_fallback_aux generateImages
              (Gemini.imagePrompt content)) as (url & Himg & Hurl).
  destruct (audio_never_rejects generateContent Bytes decode decodeAudioData
              (Gemini.script content)) as (audio & Haud).
  cbn. unfold App.handleGenerate_media. rewrite Hi, Himg, Haud. cbn.
  split_and!; try done. eexists _, url. split_and!; try done.
  cbn. intros -> st t0. by apply toggle_idle_run.
Qed.

(** X27.  A generation whose content fails leaves the view and the session
    as they are, shows the error message and arms the timer; when the
    timer fires the view is home, whatever it was then, and the session is
    still the one from before. *)
Theorem content_failure_leads_home a i p err :
  App.tasks a !! i = Some (App.AwaitContent p) →
  let a1 := App.handle (App.ContentSettled i (Gemini.Rejected err)) a in
  App.view a1 = App.view a ∧ App.session a1 = App.session a
  ∧ App.loadingStep a1 = js "Error connecting. Please try again."
  ∧ App.tasks a1 = delete i (App.tasks a)
  ∧ App.timers a1 = S (App.timers a)
  ∧ App.enabled App.TimerFired a1 = true
  ∧ ∀ a2,
      App.view (App.handle App.TimerFired a2) = App.HOME
      ∧ App.session (App.handle App.TimerFired a2) = App.session a2
      ∧ App.tasks (App.handle App.TimerFired a2) = App.tasks a2.
Proof.
  intros Hi. cbn. unfold App.handleGenerate_content. rewrite Hi. by cbn.
Qed.

(** X28.  A generation that finishes installs its session and shows the
    player whatever is on the page at that moment: the home view the user
    went back to, or the player of an earlier session, whose session is
    replaced while it stays on the page. *)
Theorem finished_generation_takes_over a i content imageUrl audioBuffer :
  App.reachable a →
  App.tasks a !! i = Some (App.AwaitMedia content) →
  let a' :=
    App.handle
      (App.MediaSettled i (Gemini.Fulfilled imageUrl)
         (Gemini.Fulfilled audioBuffer)) a in
  App.reachable a' ∧ App.playerShown a' = true
  ∧ App.session a'
    = Some {| Gemini.title := Gemini.title content;
              Gemini.script := Gemini.script content;
              Gemini.imagePrompt := Gemini.imagePrompt content;
              Gemini.imageUrl := Some imageUrl;
              Gemini.audioBuffer := audioBuffer |}.
Proof.
  intros Hr Hi. split.
  - apply App.reach_step; [done|]. cbn. by rewrite Hi.
  - cbn. unfold App.handleGenerate_media. rewrite Hi. by cbn.
Qed.

(** * The further properties at concrete states *)

Lemma X1_witness :
  reachable (Some 10) half_played ∧ ctx_currentTime half_played <= 6
  ∧ ∃ s', step 6 Frame half_played = Done () s'.
Proof.
  assert (ctx_currentTime half_played <= 6) as Ht by (by vm_compute).
  split_and!; [apply reachable_half_played|done|].
  apply (player_events_never_fault (Some 10) ten_positive half_played 6 Frame
           reachable_half_played Ht).
Defined.

Lemma X2_witness :
  reachable (Some 10) half_played
  ∧ 0 <= progress half_played <= 100
  ∧ 0 <= progressFraction half_played <= 1.
Proof.
  split; [apply reachable_half_played|].
  apply (progress_within_bounds (Some 10) ten_positive half_played
           reachable_half_played).
Defined.

Lemma X3_witness :
  reachable (Some 10) half_played ∧ isPlaying half_played = true
  ∧ ctx_currentTime half_played <= 6
  ∧ audioSourceRef half_played = Some 0%nat
  ∧ ctx_sources half_played !! 0%nat = Some half_played_source
  ∧ n_started half_played_source = Some (Qmax 0 0, 0 / 100 * 10)
  ∧ startTimeRef half_played == Qmax 0 0 - 0 / 100 * 10
  ∧ ∃ s', step 6 Frame half_played = Done () s'
          ∧ progress s'
            == Qmin ((6 - (Qmax 0 0 - 0 / 100 * 10)) / 10 * 100) 100.
Proof.
  assert (isPlaying half_played = true) as Hp by (by vm_compute).
  assert (ctx_currentTime half_played <= 6) as Ht by (by vm_compute).
  assert (audioSourceRef half_played = Some 0%nat) as Href
    by (by vm_compute).
  assert (ctx_sources half_played !! 0%nat = Some half_played_source) as Hn
    by (by vm_compute).
  assert (n_started half_played_source = Some (Qmax 0 0, 0 / 100 * 10))
    as Hst by reflexivity.
  split_and!; [apply reachable_half_played|done..|].
  apply (progress_tracks_source_position (Some 10) ten_positive half_played 6
           0%nat half_played_source (Qmax 0 0) (0 / 100 * 10) 10
           reachable_half_played Hp Ht Href Hn Hst eq_refl).
Defined.

Lemma X4_witness :
  reachable (Some 10) half_played ∧ isPlaying half_played = true
  ∧ ctx_currentTime half_played <= 6
  ∧ 6 - startTimeRef half_played < 10
  ∧ ∃ s' c, step 6 Frame half_played = Done () s'
            ∧ isPlaying s' = true
            ∧ progress s' == (6 - startTimeRef half_played) / 10 * 100
            ∧ progress s' < 100
            ∧ raf_pending s' = [(animationFrameRef s', c)]
            ∧ c_isPlaying c = true.
Proof.
  assert (isPlaying half_played = true) as Hp by (by vm_compute).
  assert (ctx_currentTime half_played <= 6) as Ht by (by vm_compute).
  assert (6 - startTimeRef half_played < 10) as Hlt by (by vm_compute).
  split_and!; [apply reachable_half_played|done..|].
  apply (update_loop_continues (Some 10) ten_positive half_played 6 10
           reachable_half_played Hp eq_refl Ht Hlt).
Defined.

Lemma X5_witness :
  reachable (Some 10) played_out ∧ isPlaying played_out = false
  ∧ ctx_currentTime played_out <= 12
  ∧ raf_pending played_out = []
  ∧ step 12 Frame played_out = Done () (set_ctx_currentTime 12 played_out).
Proof.
  assert (isPlaying played_out = false) as Hp by (by vm_compute).
  assert (ctx_currentTime played_out <= 12) as Ht by (by vm_compute).
  split_and!; [apply reachable_played_out|done..| |];
    apply (paused_player_ignores_frames (Some 10) ten_positive played_out 12
             reachable_played_out Hp Ht).
Defined.


Lemma X7_witness :
  reachable (Some 10) half_played
  ∧ audioSourceRef half_played = Some 0%nat
  ∧ ctx_sources half_played !! 0%nat = Some half_played_source
  ∧ ∃ g gn, n_output half_played_source = Some g
            ∧ gainNodeRef half_played = Some g
            ∧ ctx_gains half_played !! g = Some gn
            ∧ g_value gn = fround (volume half_played)
            ∧ g_toDestination gn = true.
Proof.
  assert (audioSourceRef half_played = Some 0%nat) as Href
    by (by vm_compute).
  assert (ctx_sources half_played !! 0%nat = Some half_played_source) as Hn
    by (by vm_compute).
  split_and!; [apply reachable_half_played|done..|].
  apply (owned_node_plays_at_stored_volume (Some 10) ten_positive half_played
           0%nat half_played_source reachable_half_played Href Hn).
Defined.

Lemma X8_witness :
  reachable (Some 10) half_played
  ∧ length (ctx_gains half_played) = length (ctx_sources half_played)
  ∧ (ctx_sources half_played ≠ [] → ctx_state half_played = running).
Proof.
  split; [apply reachable_half_played|].
  destruct (audio_graph_is_wired (Some 10) ten_positive half_played
              reachable_half_played) as (Hlen & Hrun & _).
  by split.
Defined.

Lemma X9_witness :
  reachable (Some 10) half_played ∧ ctx_currentTime half_played <= 6
  ∧ 6 <= 7
  ∧ ∃ s1 s2, step 6 Restart half_played = Done () s1
             ∧ step 7 Toggle s1 = Done () s2
             ∧ startTimeRef s2 == 7 ∧ isPlaying s2 = true
             ∧ progress s2 = 0.
Proof.
  assert (ctx_currentTime half_played <= 6) as Ht1 by (by vm_compute).
  assert (6 <= 7) as Ht2 by (by vm_compute).
  split_and!; [apply reachable_half_played|done..|].
  destruct (restart_then_play_starts_over (Some 10) ten_positive half_played
              6 7 10 reachable_half_played eq_refl Ht1 Ht2)
    as (s1 & s2 & g & offset & H1 & H2 & _ & _ & _ & Hst & Hp & Hprog).
  by exists s1, s2.
Defined.

Lemma X10_witness :
  reachable (Some 10) half_played ∧ isPlaying half_played = true
  ∧ ctx_currentTime half_played <= 6 ∧ 6 <= 8 ∧ 8 <= 9
  ∧ ∃ s1 s2 s3,
      step 6 Toggle half_played = Done () s1
      ∧ step 8 Toggle s1 = Done () s2
      ∧ step 9 Frame s2 = Done () s3
      ∧ progress s1 = progress half_played
      ∧ progress s3
        == Qmin ((9 - (8 - progress half_played / 100 * 10)) / 10 * 100) 100.
Proof.
  assert (isPlaying half_played = true) as Hp by (by vm_compute).
  assert (ctx_currentTime half_played <= 6) as Ht1 by (by vm_compute).
  assert (6 <= 8) as Ht2 by (by vm_compute).
  assert (8 <= 9) as Ht3 by (by vm_compute).
  split_and!; [apply reachable_half_played|done..|].
  apply (paused_time_is_not_counted (Some 10) ten_positive half_played 6 8 9
           10 reachable_half_played Hp eq_refl Ht1 Ht2 Ht3).
Defined.

Lemma X11_witness :
  c_isPlaying (render session10) = false
  ∧ ∃ s', updateProgress (render session10) session10 = Done () s'
          ∧ raf_pending s' = raf_pending session10
          ∧ raf_next s' = raf_next session10
          ∧ animationFrameRef s' = animationFrameRef session10.
Proof.
  assert (c_isPlaying (render session10) = false) as Hc by reflexivity.
  split; [done|].
  apply (stale_frame_never_reschedules (render session10) session10 Hc).
Defined.

Lemma X13_witness :
  Gemini.generateMeditationContent calm_service parse_known
    (js "Tired") (js "Sleep") (js "Short")
  = Gemini.Fulfilled
      {| Gemini.title := js "Calm"; Gemini.script := [];
         Gemini.imagePrompt :=
           js "A peaceful abstract landscape with soft colors";
         Gemini.imageUrl := None; Gemini.audioBuffer := None |}
  ∧ js "Calm" ≠ []
  ∧ js "A peaceful abstract landscape with soft colors" ≠ [].
Proof.
  assert (Gemini.generateMeditationContent calm_service parse_known
            (js "Tired") (js "Sleep") (js "Short")
          = Gemini.Fulfilled
              {| Gemini.title := js "Calm"; Gemini.script := [];
                 Gemini.imagePrompt :=
                   js "A peaceful abstract landscape with soft colors";
                 Gemini.imageUrl := None; Gemini.audioBuffer := None |})
    as Hrun by (by vm_compute).
  split; [done|].
  destruct (content_has_title_and_image_prompt calm_service parse_known
              (js "Tired") (js "Sleep") (js "Short") _ Hrun)
    as (Ht & Hi & _).
  by split.
Defined.

Lemma X14_witness :
  empty_object (js "{}")
  = Some (Some {| Gemini.json_title := None; Gemini.json_script := None;
                  Gemini.json_imagePrompt := None |})
  ∧ Gemini.generateMeditationContent silent_service empty_object
      (js "Tired") (js "Sleep") (js "Short")
    = Gemini.Fulfilled
        {| Gemini.title := js "Meditation Session"; Gemini.script := [];
           Gemini.imagePrompt :=
             js "A peaceful abstract landscape with soft colors";
           Gemini.imageUrl := None; Gemini.audioBuffer := None |}.
Proof.
  split; [reflexivity|].
  apply (empty_reply_gives_default_session silent_service empty_object
           (js "Tired") (js "Sleep") (js "Short")
           {| Gemini.text := None; Gemini.candidates := None |}
           eq_refl eq_refl (or_introl eq_refl)).
Defined.

Lemma reachable_chatting : ChatWidget.reachable chatting.
Proof. repeat (apply ChatWidget.reach_step; [|done]). apply ChatWidget.reach_mount. Qed.

Lemma guided_chatting : ChatWidget.reachable_with_guide chatting.
Proof.
  repeat (apply ChatWidget.guided_step; [|done|done]).
  apply ChatWidget.guided_mount.
Qed.

Lemma X20_witness :
  ChatWidget.reachable chatting
  ∧ (length (ChatWidget.pending chatting) ≤ 1)%nat
  ∧ (ChatWidget.isTyping chatting = true ↔ ChatWidget.pending chatting ≠ []).
Proof.
  split; [apply reachable_chatting|].
  destruct (one_reply_awaited_at_a_time chatting reachable_chatting)
    as (Hlen & Htyping & _).
  by split.
Defined.

Lemma X21_witness :
  ChatWidget.reachable_with_guide chatting
  ∧ ChatWidget.alternating ChatWidget.model (ChatWidget.messages chatting)
    = true
  ∧ ChatWidget.isTyping chatting
    = Nat.even (length (ChatWidget.messages chatting)).
Proof.
  split; [apply guided_chatting|].
  destruct (conversation_alternates chatting guided_chatting)
    as (Halt & _ & Hev & _).
  by split.
Defined.

Lemma X22_witness :
  ChatWidget.reachable chatting
  ∧ ∃ now rest,
      ChatWidget.messages chatting
      = {| ChatWidget.role := ChatWidget.model;
           ChatWidget.text := ChatWidget.greeting;
           ChatWidget.timestamp := now |} :: rest.
Proof.
  split; [apply reachable_chatting|].
  by destruct (messages_only_grow chatting reachable_chatting) as [Hfirst _].
Defined.

Lemma reachable_media_pending : App.reachable media_pending.
Proof. repeat (apply App.reach_step; [|done]). apply App.reach_mount. Qed.

Lemma reachable_overlapping : App.reachable overlapping.
Proof. repeat (apply App.reach_step; [|done]). apply App.reach_mount. Qed.

Lemma X24_witness :
  App.reachable overlapping ∧ App.view overlapping = App.PLAYER
  ∧ App.playerShown overlapping = true.
Proof.
  assert (App.view overlapping = App.PLAYER) as Hv by reflexivity.
  split_and!; [apply reachable_overlapping|done|].
  by apply (player_view_has_session overlapping reachable_overlapping).
Defined.

Lemma X25_witness :
  App.reachable media_pending ∧ App.view media_pending = App.GENERATING
  ∧ (App.tasks media_pending ≠ [] ∨ App.timers media_pending ≠ 0%nat).
Proof.
  assert (App.view media_pending = App.GENERATING) as Hv by reflexivity.
  split_and!; [apply reachable_media_pending|done|].
  apply (generating_view_has_something_pending media_pending
           reachable_media_pending Hv).
Defined.

Lemma X26_witness :
  App.tasks media_pending !! 0%nat = Some (App.AwaitMedia calm_content)
  ∧ App.view
      (App.handle
         (App.MediaSettled 0
            (Gemini.generateMeditationImage
               (λ _, Gemini.Rejected Gemini.SyntaxError)
               (Gemini.imagePrompt calm_content))
            (Gemini.generateMeditationAudio silent_service unit
               (λ _, Gemini.Rejected Gemini.DecodeFailure)
               (λ _ _ _, Gemini.Rejected Gemini.DecodeFailure)
               (Gemini.script calm_content))) media_pending)
    = App.PLAYER.
Proof.
  assert (App.tasks media_pending !! 0%nat
          = Some (App.AwaitMedia calm_content)) as Hi by reflexivity.
  split; [done|].
  by destruct (media_cannot_fail_generation media_pending 0 calm_content
                 (λ _, Gemini.Rejected Gemini.SyntaxError) silent_service unit
                 (λ _, Gemini.Rejected Gemini.DecodeFailure)
                 (λ _ _ _, Gemini.Rejected Gemini.DecodeFailure) Hi)
    as (Hv & _).
Defined.

Lemma X27_witness :
  App.tasks generating !! 0%nat = Some (App.AwaitContent (App.params filled_in))
  ∧ App.view
      (App.handle App.TimerFired
         (App.handle
            (App.ContentSettled 0 (Gemini.Rejected Gemini.SyntaxError))
            generating))
    = App.HOME.
Proof.
  assert (App.tasks generating !! 0%nat
          = Some (App.AwaitContent (App.params filled_in))) as Hi
    by reflexivity.
  split; [done|].
  destruct (content_failure_leads_home generating 0 (App.params filled_in)
              Gemini.SyntaxError Hi) as (_ & _ & _ & _ & _ & _ & Htimer).
  by destruct (Htimer (App.handle
                         (App.ContentSettled 0
                            (Gemini.Rejected Gemini.SyntaxError))
                         generating)) as (Hv & _).
Defined.

Lemma X28_witness :
  App.reachable overlapping ∧ App.playerShown overlapping = true
  ∧ App.tasks overlapping !! 0%nat = Some (App.AwaitMedia calm_content)
  ∧ App.playerShown
      (App.handle
         (App.MediaSettled 0 (Gemini.Fulfilled Gemini.fallbackImage)
            (Gemini.Fulfilled None)) overlapping)
    = true.
Proof.
  assert (App.tasks overlapping !! 0%nat = Some (App.AwaitMedia calm_content))
    as Hi by reflexivity.
  split_and!; [apply reachable_overlapping|reflexivity|done|].
  by destruct (finished_generation_takes_over overlapping 0 calm_content
                 Gemini.fallbackImage None reachable_overlapping Hi)
    as (_ & Hshown & _).
Defined.

